(** * BEM class names to nested SCSS: a shallow embedding of [extension.ts]

    The extension reads the selected markup, collects the class names of
    every [class=] / [className=] attribute, splits each name by the BEM
    convention (block, [__element], [--modifier]), folds the names into a
    forest of selector nodes and prints the forest as nested SCSS.

    Strings are [string] (sequences of 8-bit characters standing for the
    code units of the JavaScript string; none of the regular expressions
    carries the [u] or [i] flag, so they work code unit by code unit).
    Regular expressions are values of an abstract syntax interpreted by a
    backtracking matcher with the priorities of the ECMAScript one. *)

From Stdlib Require Import String Ascii List Bool Arith ZArith NArith Lia.
From Stdlib Require Import Permutation Sorted.
Import ListNotations.

Local Open Scope string_scope.
Local Open Scope list_scope.

(* ================================================================== *)
(** ** Characters and small string helpers *)

Definition dquote : ascii := ascii_of_nat 34.
Definition squote : ascii := ascii_of_nat 39.
Definition tab : ascii := ascii_of_nat 9.
Definition newline : ascii := ascii_of_nat 10.

Definition str1 (c : ascii) : string := String c EmptyString.

Definition in_range (lo hi c : ascii) : bool :=
  (N_of_ascii lo <=? N_of_ascii c)%N && (N_of_ascii c <=? N_of_ascii hi)%N.

(** The class [[a-zA-Z0-9]]. *)
Definition alnum (c : ascii) : bool :=
  in_range "a" "z" c || in_range "A" "Z" c || in_range "0" "9" c.

(** The class of the two quote characters. *)
Definition is_quote (c : ascii) : bool :=
  Ascii.eqb c dquote || Ascii.eqb c squote.

(** The negated class: any character but a quote. *)
Definition not_quote (c : ascii) : bool := negb (is_quote c).

Fixpoint string_forall (p : ascii -> bool) (s : string) : bool :=
  match s with
  | EmptyString => true
  | String c s' => p c && string_forall p s'
  end.

Fixpoint count_char (c : ascii) (s : string) : nat :=
  match s with
  | EmptyString => 0
  | String d s' => (if Ascii.eqb d c then 1 else 0) + count_char c s'
  end.

(** [String.prototype.repeat]. *)
Fixpoint repeat_string (s : string) (n : nat) : string :=
  match n with
  | 0 => EmptyString
  | S n' => (s ++ repeat_string s n')%string
  end.

(** JavaScript truthiness of a value that is a string, [null] or
    [undefined]: the empty string is falsy. *)
Definition truthy (v : option string) : bool :=
  match v with
  | Some s => negb (String.eqb s EmptyString)
  | None => false
  end.

(** [v || null]. *)
Definition or_null (v : option string) : option string :=
  if truthy v then v else None.

(* ================================================================== *)
(** ** Regular expressions *)

Module Regex.

Inductive regex : Type :=
| Eps
| Chr (p : ascii -> bool)      (* one character, or one character class *)
| Seq (r1 r2 : regex)
| Star (r : regex)             (* greedy [r*] *)
| Opt (r : regex)              (* greedy [r?] *)
| Group (r : regex)            (* the capturing group [(r)] *)
| Bol                          (* [^], no [m] flag *)
| Eol.                         (* [$], no [m] flag *)

Definition Plus (r : regex) : regex := Seq r (Star r).

Fixpoint Lit (s : string) : regex :=
  match s with
  | EmptyString => Eps
  | String c EmptyString => Chr (Ascii.eqb c)
  | String c s' => Seq (Chr (Ascii.eqb c)) (Lit s')
  end.

(** The state of one match attempt: the index reached, the input still
    ahead, the text consumed since the attempt started, and the text of the
    capturing group (every expression of the extension has exactly one). *)
Record mstate : Type := mkState {
  ms_pos : nat;
  ms_rest : string;
  ms_matched : string;
  ms_cap : option string
}.

Definition consume (c : ascii) (s' : string) (st : mstate) : mstate :=
  {| ms_pos := S (ms_pos st);
     ms_rest := s';
     ms_matched := (ms_matched st ++ str1 c)%string;
     ms_cap := ms_cap st |}.

Definition capture (st0 st1 : mstate) : mstate :=
  let n0 := String.length (ms_matched st0) in
  {| ms_pos := ms_pos st1;
     ms_rest := ms_rest st1;
     ms_matched := ms_matched st1;
     ms_cap := Some (substring n0 (String.length (ms_matched st1) - n0)
                       (ms_matched st1)) |}.

(** The backtracking matcher, in continuation-passing style: [rmatch r st k]
    tries the ways [r] can match at [st] in priority order and returns the
    first one the continuation [k] accepts.  An iteration of [Star] that
    consumes nothing is rejected, as in ECMAScript, so the iteration count
    is bounded by the length of the remaining input. *)
Fixpoint rmatch (r : regex) (st : mstate) (k : mstate -> option mstate)
  {struct r} : option mstate :=
  match r with
  | Eps => k st
  | Chr p =>
      match ms_rest st with
      | String c s' => if p c then k (consume c s' st) else None
      | EmptyString => None
      end
  | Seq r1 r2 => rmatch r1 st (fun st1 => rmatch r2 st1 k)
  | Star r1 =>
      (fix loop (fuel : nat) (st : mstate) {struct fuel} : option mstate :=
         match fuel with
         | 0 => k st
         | S fuel' =>
             match rmatch r1 st (fun st1 =>
                     if (String.length (ms_rest st1) <? String.length (ms_rest st))%nat
                     then loop fuel' st1 else None) with
             | Some res => Some res
             | None => k st
             end
         end) (String.length (ms_rest st)) st
  | Opt r1 =>
      match rmatch r1 st k with
      | Some res => Some res
      | None => k st
      end
  | Group r1 => rmatch r1 st (fun st1 => k (capture st st1))
  | Bol => if (ms_pos st =? 0)%nat then k st else None
  | Eol => match ms_rest st with EmptyString => k st | String _ _ => None end
  end.

(** A match object: [index], [match[0]], [match[1]] and the input after the
    match. *)
Record match_result : Type := mkMatch {
  m_index : nat;
  m_0 : string;
  m_1 : option string;
  m_after : string
}.

Definition attempt (r : regex) (pos : nat) (s : string) : option match_result :=
  match rmatch r (mkState pos s EmptyString None) Some with
  | Some st => Some (mkMatch pos (ms_matched st) (ms_cap st) (ms_rest st))
  | None => None
  end.

(** [RegExp.prototype.exec] from index [pos], [s] being the input from
    [pos] on: the leftmost position at which the expression matches. *)
Fixpoint search (r : regex) (pos : nat) (s : string) : option match_result :=
  match attempt r pos s with
  | Some m => Some m
  | None =>
      match s with
      | EmptyString => None
      | String _ s' => search r (S pos) s'
      end
  end.

(** [String.prototype.match] with an expression without the [g] flag. *)
Definition str_match (r : regex) (s : string) : option match_result :=
  search r 0 s.

(** [String.prototype.matchAll] with a [g] expression, collected by
    [Array.from]: the successive matches, each search starting where the
    previous match ended (one character further after an empty match). *)
Fixpoint matchAll_from (fuel : nat) (r : regex) (pos : nat) (s : string)
  : list match_result :=
  match fuel with
  | 0 => []
  | S fuel' =>
      match search r pos s with
      | None => []
      | Some m =>
          let last := m_index m + String.length (m_0 m) in
          m :: match m_0 m, m_after m with
               | EmptyString, EmptyString => []
               | EmptyString, String _ s' => matchAll_from fuel' r (S last) s'
               | _, s' => matchAll_from fuel' r last s'
               end
      end
  end.

Definition matchAll (r : regex) (s : string) : list match_result :=
  matchAll_from (S (String.length s)) r 0 s.

End Regex.
Import Regex.

(* ================================================================== *)
(** ** The expressions of the extension *)

(** The name pattern shared by the three BEM expressions: a run of
    [[a-zA-Z0-9]], then any number of times a hyphen and another run
    (in the source: the run with [+], then a non-capturing group with [*]). *)
Definition NAME : regex :=
  Seq (Plus (Chr alnum)) (Star (Seq (Lit "-") (Plus (Chr alnum)))).

(** [class(?:Name)?=Q([^Q]+)Q] with the [g] flag, where [Q] stands for the
    class of the two quote characters. *)
Definition CLASS_NAME_REGEX : regex :=
  Seq (Lit "class")
   (Seq (Opt (Lit "Name"))
    (Seq (Lit "=")
     (Seq (Chr is_quote)
      (Seq (Group (Plus (Chr not_quote))) (Chr is_quote))))).

(** [BLOCK_REGEX]: one capturing group holding [^] and the name pattern. *)
Definition BLOCK_REGEX : regex := Group (Seq Bol NAME).

(** [ELEMENT_REGEX]: two underscores, then the name pattern in a group. *)
Definition ELEMENT_REGEX : regex := Seq (Lit "__") (Group NAME).

(** [MODIFIER_REGEX]: two hyphens, the name pattern in a group, then [$]. *)
Definition MODIFIER_REGEX : regex := Seq (Lit "--") (Seq (Group NAME) Eol).

(* ================================================================== *)
(** ** Class extractor and BEM tokenizer *)

(** [String.prototype.split] with a one-character separator: the pieces
    between the occurrences of the separator, empty pieces included. *)
Fixpoint split_on (sep : ascii -> bool) (cur : string) (s : string)
  : list string :=
  match s with
  | EmptyString => [cur]
  | String c s' =>
      if sep c then cur :: split_on sep EmptyString s'
      else split_on sep (cur ++ str1 c)%string s'
  end.

Definition split_space (s : string) : list string :=
  split_on (Ascii.eqb " ") EmptyString s.

(** [match[1]] of a match of [CLASS_NAME_REGEX]; the group takes part in
    every match, the fallback is never used. *)
Definition group1 (m : match_result) : string :=
  match m_1 m with Some v => v | None => EmptyString end.

(** The values of the class attributes the expression finds. *)
Definition class_attribute_values (htmlString : string) : list string :=
  map group1 (matchAll CLASS_NAME_REGEX htmlString).

Definition getAllClassName (htmlString : string) : list string :=
  flat_map (fun m => split_space (group1 m))
           (matchAll CLASS_NAME_REGEX htmlString).

Definition match0 (m : option match_result) : option string :=
  option_map m_0 m.

Definition splitClassNameByBEMRule (classString : string)
  : option string * option string * option string :=
  let block := str_match BLOCK_REGEX classString in
  let element := str_match ELEMENT_REGEX classString in
  let modifier := str_match MODIFIER_REGEX classString in
  match block with
  | None => (None, None, None)
  | Some b => (Some (m_0 b), or_null (match0 element), or_null (match0 modifier))
  end.

(* ================================================================== *)
(** ** The selector tree *)

Set Warnings "-register-all".

(** [SASSObjectItem]: a selector name (the field is called [parent] in the
    source) and the nodes nested under it. *)
Inductive SASSObjectItem : Type :=
  mkItem { parent : string; children : list SASSObjectItem }.

(** [ISASSObject], a plain JavaScript object used as a map from block name
    to node: its own properties, in creation order. *)
Definition ISASSObject : Type := list (string * SASSObjectItem).

(** What reading [SASSObject[key]] can give: nothing, a node stored as an
    own property, or a member of [Object.prototype] found through the
    prototype chain (a function, or the prototype itself for [__proto__]:
    truthy, and without a [children] property). *)
Inductive js_value : Type :=
| Undefined
| Item (n : SASSObjectItem)
| Inherited.

Definition Object_prototype_keys : list string :=
  [ "constructor"; "hasOwnProperty"; "isPrototypeOf"; "propertyIsEnumerable";
    "toLocaleString"; "toString"; "valueOf"; "__proto__";
    "__defineGetter__"; "__defineSetter__"; "__lookupGetter__";
    "__lookupSetter__" ].

Fixpoint own (o : ISASSObject) (key : string) : option SASSObjectItem :=
  match o with
  | [] => None
  | (k, n) :: o' => if String.eqb k key then Some n else own o' key
  end.

(** [SASSObject[key]] as an expression. *)
Definition get (o : ISASSObject) (key : string) : js_value :=
  match own o key with
  | Some n => Item n
  | None =>
      if existsb (String.eqb key) Object_prototype_keys then Inherited
      else Undefined
  end.

Definition is_truthy (v : js_value) : bool :=
  match v with
  | Undefined => false
  | Item _ | Inherited => true
  end.

(** [SASSObject[key] = n]: an own property keeps its place, a new one is
    created last. *)
Fixpoint set (o : ISASSObject) (key : string) (n : SASSObjectItem)
  : ISASSObject :=
  match o with
  | [] => [(key, n)]
  | (k, m) :: o' =>
      if String.eqb k key then (k, n) :: o' else (k, m) :: set o' key n
  end.

(** The effect on the object of mutating, through a reference to the node
    stored under [key], the [children] array of that node. *)
Fixpoint set_children (o : ISASSObject) (key : string)
  (ch : list SASSObjectItem) : ISASSObject :=
  match o with
  | [] => []
  | (k, m) :: o' =>
      if String.eqb k key then (k, mkItem (parent m) ch) :: o'
      else (k, m) :: set_children o' key ch
  end.

(** Property keys that are array indices: canonical decimal numerals below
    [2^32 - 1].  Enumeration visits them first, in ascending order. *)
Definition digit_value (c : ascii) : option N :=
  if in_range "0" "9" c then Some (N_of_ascii c - 48)%N else None.

Fixpoint parse_digits (acc : N) (s : string) : option N :=
  match s with
  | EmptyString => Some acc
  | String c s' =>
      match digit_value c with
      | Some d => parse_digits (10 * acc + d)%N s'
      | None => None
      end
  end.

Definition array_index (key : string) : option N :=
  match key with
  | EmptyString => None
  | String c s' =>
      if Ascii.eqb c "0" && negb (String.eqb s' EmptyString) then None
      else match parse_digits 0%N key with
           | Some n => if (n <? 4294967295)%N then Some n else None
           | None => None
           end
  end.

Fixpoint insert_index {A : Type} (i : N) (x : A) (l : list (N * A))
  : list (N * A) :=
  match l with
  | [] => [(i, x)]
  | (j, y) :: l' =>
      if (i <=? j)%N then (i, x) :: (j, y) :: l'
      else (j, y) :: insert_index i x l'
  end.

Fixpoint index_entries (o : ISASSObject) : list (N * SASSObjectItem) :=
  match o with
  | [] => []
  | (k, n) :: o' =>
      match array_index k with
      | Some i => insert_index i n (index_entries o')
      | None => index_entries o'
      end
  end.

Fixpoint string_entries (o : ISASSObject) : list SASSObjectItem :=
  match o with
  | [] => []
  | (k, n) :: o' =>
      match array_index k with
      | Some _ => string_entries o'
      | None => n :: string_entries o'
      end
  end.

(** [Object.values]: array-index keys first, in ascending order, then the
    other keys in creation order. *)
Definition Object_values (o : ISASSObject) : list SASSObjectItem :=
  map snd (index_entries o) ++ string_entries o.

(* ================================================================== *)
(** ** Completions *)

Inductive js_error : Type := TypeError.

(** The outcome of running a piece of code: a value, or a thrown error. *)
Inductive completion (A : Type) : Type :=
| Normal (a : A)
| Throw (e : js_error).
Arguments Normal {A} a.
Arguments Throw {A} e.

Definition bind {A B : Type} (c : completion A) (f : A -> completion B)
  : completion B :=
  match c with
  | Normal a => f a
  | Throw e => Throw e
  end.

Notation "x <- c ;; k" := (bind c (fun x => k))
  (at level 61, c at next level, right associativity).

(* ================================================================== *)
(** ** The selector tree builder *)

(** [child.parent === name]. *)
Definition name_is (name : string) (child : SASSObjectItem) : bool :=
  String.eqb (parent child) name.

Definition leaf (name : string) : SASSObjectItem := mkItem name [].

(** [n.children.push(c)], seen on the node. *)
Definition push_child (c : SASSObjectItem) (n : SASSObjectItem)
  : SASSObjectItem :=
  mkItem (parent n) (children n ++ [c]).

(** Mutation of the first element of an array that satisfies [p], the one
    [Array.prototype.find] returns a reference to. *)
Fixpoint update_first {A : Type} (p : A -> bool) (f : A -> A) (l : list A)
  : list A :=
  match l with
  | [] => []
  | x :: l' => if p x then f x :: l' else x :: update_first p f l'
  end.

(** The block [if (element) { ... }], on the children of the block node:
    look the element up by name, push a fresh node if it is not there. *)
Definition ensure_element (element : string) (ch : list SASSObjectItem)
  : list SASSObjectItem :=
  match find (name_is element) ch with
  | Some _ => ch
  | None => ch ++ [leaf element]
  end.

(** The block [if (modifier && element) { ... }]: look the element up again,
    [continue] if it already has the modifier, push the modifier under it
    otherwise.  With no element found the optional chains do nothing. *)
Definition ensure_element_modifier (element modifier : string)
  (ch : list SASSObjectItem) : list SASSObjectItem :=
  match find (name_is element) ch with
  | Some alreadyElement =>
      if existsb (name_is modifier) (children alreadyElement) then ch
      else update_first (name_is element) (push_child (leaf modifier)) ch
  | None => ch
  end.

(** The block [if (modifier && !element) { ... }]. *)
Definition ensure_block_modifier (modifier : string)
  (ch : list SASSObjectItem) : list SASSObjectItem :=
  if existsb (name_is modifier) ch then ch else ch ++ [leaf modifier].

(** What the three blocks do together to the children of the block node.
    [element] and [modifier] are [None] when falsy.  The [continue] of the
    second block skips only the third, whose condition is false then. *)
Definition add_to_block (element modifier : option string)
  (ch : list SASSObjectItem) : list SASSObjectItem :=
  let ch1 :=
    match element with
    | Some e => ensure_element e ch
    | None => ch
    end in
  let ch2 :=
    match modifier, element with
    | Some m, Some e => ensure_element_modifier e m ch1
    | _, _ => ch1
    end in
  match modifier, element with
  | Some m, None => ensure_block_modifier m ch2
  | _, _ => ch2
  end.

(** One turn of the loop of the canonical [extractSCSS].  [alreadyBlock] is
    read before the block is created and never read again: when the block
    is new it stays [undefined], and [alreadyBlock.children] throws.  A
    member of [Object.prototype] has no [children]: calling [find] or
    [push] on that [undefined] throws as well. *)
Definition extractSCSS_body (SASSObject : ISASSObject) (className : string)
  : completion ISASSObject :=
  let '(block, element, modifier) := splitClassNameByBEMRule className in
  match or_null block with
  | None => Normal SASSObject
  | Some b =>
      let alreadyBlock := get SASSObject b in
      let SASSObject1 :=
        if is_truthy alreadyBlock then SASSObject
        else set SASSObject b (mkItem b []) in
      match or_null element, or_null modifier with
      | None, None => Normal SASSObject1
      | e, m =>
          match alreadyBlock with
          | Item blk =>
              Normal (set_children SASSObject1 b
                        (add_to_block e m (children blk)))
          | Undefined | Inherited => Throw TypeError
          end
      end
  end.

Fixpoint extractSCSS_loop (SASSObject : ISASSObject) (classNames : list string)
  : completion ISASSObject :=
  match classNames with
  | [] => Normal SASSObject
  | className :: rest =>
      o <- extractSCSS_body SASSObject className ;;
      extractSCSS_loop o rest
  end.

Section Canonical.

(** [String.prototype.localeCompare] belongs to the host: it is a
    parameter of the development. *)
Variable localeCompare : string -> string -> Z.

(** The comparator handed to [sort]. *)
Definition compareFn (a b : SASSObjectItem) : Z :=
  let aIsModifier := String.prefix "--" (parent a) in
  let bIsModifier := String.prefix "--" (parent b) in
  if aIsModifier && negb bIsModifier then (-1)%Z
  else if negb aIsModifier && bIsModifier then 1%Z
  else localeCompare (parent a) (parent b).

Fixpoint insert_by (cmp : SASSObjectItem -> SASSObjectItem -> Z)
  (x : SASSObjectItem) (l : list SASSObjectItem) : list SASSObjectItem :=
  match l with
  | [] => [x]
  | y :: l' => if (cmp x y <=? 0)%Z then x :: y :: l' else y :: insert_by cmp x l'
  end.

(** [Array.prototype.sort] is stable, and with a consistent comparator its
    result does not depend on the algorithm: a stable insertion sort
    stands for it. *)
Definition sort_by (cmp : SASSObjectItem -> SASSObjectItem -> Z)
  (l : list SASSObjectItem) : list SASSObjectItem :=
  fold_right (insert_by cmp) [] l.

Definition sortSASSObjectChildren (ch : list SASSObjectItem)
  : list SASSObjectItem :=
  sort_by compareFn ch.

(** The closing loop: every block gets its children sorted; nothing below
    them is touched. *)
Definition sort_blocks (o : ISASSObject) : ISASSObject :=
  map (fun kn => (fst kn,
                  mkItem (parent (snd kn))
                         (sortSASSObjectChildren (children (snd kn))))) o.

Definition extractSCSS (classNames : list string) : completion ISASSObject :=
  o <- extractSCSS_loop [] classNames ;;
  Normal (sort_blocks o).

End Canonical.

(* ================================================================== *)
(** ** The earlier variant, [src/extension.ts] *)

(** It reads [SASSObject[block]] again after creating the block, pushes
    modifiers without looking for duplicates and does not sort. *)
Definition extractSCSS_legacy_body (SASSObject : ISASSObject)
  (className : string) : completion ISASSObject :=
  let '(block, element, modify) := splitClassNameByBEMRule className in
  match or_null block with
  | None => Normal SASSObject
  | Some b =>
      let SASSObject1 :=
        if is_truthy (get SASSObject b) then SASSObject
        else set SASSObject b (mkItem b []) in
      match or_null element, or_null modify with
      | None, None => Normal SASSObject1
      | e, m =>
          match get SASSObject1 b with
          | Item blk =>
              let ch1 :=
                match e with
                | Some el => ensure_element el (children blk)
                | None => children blk
                end in
              let ch2 :=
                match m, e with
                | Some md, Some el =>
                    update_first (name_is el) (push_child (leaf md)) ch1
                | Some md, None => ch1 ++ [leaf md]
                | None, _ => ch1
                end in
              Normal (set_children SASSObject1 b ch2)
          | Undefined | Inherited => Throw TypeError
          end
      end
  end.

Fixpoint extractSCSS_legacy_loop (SASSObject : ISASSObject)
  (classNames : list string) : completion ISASSObject :=
  match classNames with
  | [] => Normal SASSObject
  | className :: rest =>
      o <- extractSCSS_legacy_body SASSObject className ;;
      extractSCSS_legacy_loop o rest
  end.

Definition extractSCSS_legacy (classNames : list string)
  : completion ISASSObject :=
  extractSCSS_legacy_loop [] classNames.

(* ================================================================== *)
(** ** The serializer *)

Fixpoint parseToSCSS (obj : SASSObjectItem) (parentSelector : string)
  (indentLevel : nat) {struct obj} : string :=
  match obj with
  | mkItem name kids =>
      let currentSelector :=
        (if negb (truthy (Some parentSelector)) then "." ++ name
         else "&" ++ name)%string in
      let indent := repeat_string (str1 tab) indentLevel in
      (indent ++ currentSelector ++ " {" ++ str1 newline
       ++ indent ++ "  " ++ str1 newline
       ++ (fix each (l : list SASSObjectItem) : string :=
             match l with
             | [] => EmptyString
             | child :: l' =>
                 parseToSCSS child currentSelector (indentLevel + 1) ++ each l'
             end) kids
       ++ indent ++ "}" ++ str1 newline
       ++ (if (indentLevel =? 0)%nat then str1 newline else EmptyString))%string
  end.

Definition generateSCSS (sassObject : ISASSObject) : string :=
  fold_left (fun result block =>
               (result ++ parseToSCSS block EmptyString 0)%string)
            (Object_values sassObject) EmptyString.

(* ================================================================== *)
(** ** Vocabulary of the properties *)

(** The language of an expression, anchors read as the empty word: what a
    successful match can have consumed. *)
Inductive lang : regex -> string -> Prop :=
| lang_Eps : lang Eps EmptyString
| lang_Chr p c : p c = true -> lang (Chr p) (str1 c)
| lang_Seq r1 r2 w1 w2 :
    lang r1 w1 -> lang r2 w2 -> lang (Seq r1 r2) (w1 ++ w2)%string
| lang_Star_nil r : lang (Star r) EmptyString
| lang_Star_more r w1 w2 :
    lang r w1 -> lang (Star r) w2 -> lang (Star r) (w1 ++ w2)%string
| lang_Opt_none r : lang (Opt r) EmptyString
| lang_Opt_some r w : lang r w -> lang (Opt r) w
| lang_Group r w : lang r w -> lang (Group r) w
| lang_Bol : lang Bol EmptyString
| lang_Eol : lang Eol EmptyString.

(** The characters an expression can consume. *)
Fixpoint accepts (r : regex) (c : ascii) : bool :=
  match r with
  | Chr p => p c
  | Seq r1 r2 => accepts r1 c || accepts r2 c
  | Star r1 | Opt r1 | Group r1 => accepts r1 c
  | Eps | Bol | Eol => false
  end.

(** Characters of BEM names: letters, digits, hyphen and underscore. *)
Definition bem_char (c : ascii) : bool :=
  alnum c || Ascii.eqb c "-" || Ascii.eqb c "_".

Definition block_name (s : string) : bool := string_forall bem_char s.

Definition element_name (s : string) : bool :=
  String.prefix "__" s && string_forall bem_char s.

Definition modifier_name (s : string) : bool :=
  String.prefix "--" s && string_forall bem_char s.

Definition names (l : list SASSObjectItem) : list string := map parent l.

(** A modifier node: a modifier name and no children. *)
Definition modifier_node (n : SASSObjectItem) : Prop :=
  modifier_name (parent n) = true /\ children n = [].

(** An element node: an element name and, below it, modifier nodes with
    distinct names. *)
Definition element_node (n : SASSObjectItem) : Prop :=
  element_name (parent n) = true /\
  NoDup (names (children n)) /\
  Forall modifier_node (children n).

Definition block_children_ok (ch : list SASSObjectItem) : Prop :=
  NoDup (names ch) /\ Forall (fun c => element_node c \/ modifier_node c) ch.

Definition block_node (key : string) (n : SASSObjectItem) : Prop :=
  parent n = key /\ block_name key = true /\ block_children_ok (children n).

(** The shape of the object the builder works on. *)
Definition forest_ok (o : ISASSObject) : Prop :=
  Forall (fun kn => block_node (fst kn) (snd kn)) o.

(** No node of the tree has two children of the same name. *)
Fixpoint distinct_children (n : SASSObjectItem) : Prop :=
  match n with
  | mkItem _ kids =>
      NoDup (names kids) /\
      (fix each (l : list SASSObjectItem) : Prop :=
         match l with
         | [] => True
         | c :: l' => distinct_children c /\ each l'
         end) kids
  end.

(** Number of levels of a tree. *)
Fixpoint height (n : SASSObjectItem) : nat :=
  match n with
  | mkItem _ kids =>
      S ((fix each (l : list SASSObjectItem) : nat :=
            match l with
            | [] => 0
            | c :: l' => Nat.max (height c) (each l')
            end) kids)
  end.

(** Every name of the tree satisfies [p]. *)
Fixpoint all_names (p : string -> bool) (n : SASSObjectItem) : bool :=
  match n with
  | mkItem name kids =>
      p name &&
      (fix each (l : list SASSObjectItem) : bool :=
         match l with
         | [] => true
         | c :: l' => all_names p c && each l'
         end) kids
  end.

Definition is_brace (c : ascii) : bool := Ascii.eqb c "{" || Ascii.eqb c "}".

Definition brace_free (s : string) : bool :=
  string_forall (fun c => negb (is_brace c)) s.

(** Selector forests as the data model has them: names are pieces of class
    names, and in particular hold no brace. *)
Definition SelectorForest (f : ISASSObject) : Prop :=
  Forall (fun kn => all_names brace_free (snd kn) = true) f.

(** Reading a text left to right with the number of braces open so far:
    [None] as soon as a closing brace has no opening one. *)
Fixpoint brace_scan (s : string) (depth : nat) : option nat :=
  match s with
  | EmptyString => Some depth
  | String c s' =>
      if Ascii.eqb c "{" then brace_scan s' (S depth)
      else if Ascii.eqb c "}" then
             match depth with
             | 0 => None
             | S d => brace_scan s' d
             end
           else brace_scan s' depth
  end.

(** Braces properly nested and all closed. *)
Definition balanced (s : string) : Prop := brace_scan s 0 = Some 0.

(** White space, as the specification's [whitespace-separated word] reads:
    space, tab, line feed, vertical tab, form feed, carriage return. *)
Definition is_whitespace (c : ascii) : bool :=
  let n := N_of_ascii c in
  (n =? 32)%N || ((9 <=? n)%N && (n <=? 13)%N).

(** The whitespace-separated words of a text, after the specification:
    the maximal runs of characters that are not white space. *)
Definition whitespace_words (s : string) : list string :=
  filter (fun w => negb (String.eqb w EmptyString))
         (split_on is_whitespace EmptyString s).

Section Order.

Variable localeCompare : string -> string -> Z.

(** [a] may stand before [b] in a sorted array. *)
Definition locale_le (a b : SASSObjectItem) : Prop :=
  (localeCompare (parent a) (parent b) <= 0)%Z.

Definition is_modifier_named (n : SASSObjectItem) : bool :=
  String.prefix "--" (parent n).

Definition is_element_named (n : SASSObjectItem) : bool :=
  String.prefix "__" (parent n).

(** Modifiers first, then elements, each group in the order of
    [localeCompare]. *)
Definition modifiers_then_elements (ch : list SASSObjectItem) : Prop :=
  exists ms es,
    ch = ms ++ es /\
    Forall (fun n => is_modifier_named n = true) ms /\
    Forall (fun n => is_element_named n = true) es /\
    StronglySorted locale_le ms /\
    StronglySorted locale_le es.

End Order.

(** The sorting pass permutes the children of every block and changes
    nothing else: same keys, same names, and the same nodes, subtrees
    included, under each block. *)
Definition same_up_to_child_order (o o' : ISASSObject) : Prop :=
  Forall2 (fun kn kn' =>
             fst kn = fst kn' /\
             parent (snd kn) = parent (snd kn') /\
             Permutation (children (snd kn)) (children (snd kn'))) o o'.

(** A comparator to run the canonical variant with: the order of the
    character codes. *)
Definition codeunit_compare (a b : string) : Z :=
  match String.compare a b with
  | Lt => (-1)%Z
  | Eq => 0%Z
  | Gt => 1%Z
  end.

(** Markup used in examples; [dq] is the double quote. *)
Definition dq : string := str1 dquote.

Definition App_jsx_classes : string :=
  ("<div className=" ++ dq ++ "app" ++ dq ++ ">"
   ++ "<div className=" ++ dq ++ "app__header" ++ dq ++ "></div>"
   ++ "<div className=" ++ dq ++ "app__header--mobile" ++ dq ++ "></div>"
   ++ "<h1 className=" ++ dq ++ "app__heading--h1" ++ dq ++ ">Hello world</h1>"
   ++ "<div className=" ++ dq ++ "view-card" ++ dq ++ ">"
   ++ "<div className=" ++ dq ++ "view-cart__image" ++ dq ++ "></div>"
   ++ "<div className=" ++ dq ++ "view-cart__body" ++ dq ++ ">"
   ++ "<h3 className=" ++ dq ++ "view-cart__title" ++ dq ++ "></h3>"
   ++ "<span className=" ++ dq ++ "view-cart__sub-title" ++ dq ++ "></span>"
   ++ "</div></div></div>")%string.

(** The children of a block already hold what a class name with these
    components asks for. *)
Definition has_names (element modifier : option string)
  (ch : list SASSObjectItem) : bool :=
  match element, modifier with
  | Some e, Some m =>
      match find (name_is e) ch with
      | Some el => existsb (name_is m) (children el)
      | None => false
      end
  | Some e, None => existsb (name_is e) ch
  | None, Some m => existsb (name_is m) ch
  | None, None => true
  end.

(** The object already holds everything the class name asks for. *)
Definition covered (o : ISASSObject) (className : string) : Prop :=
  let '(block, element, modifier) := splitClassNameByBEMRule className in
  match or_null block with
  | None => True
  | Some b =>
      match or_null element, or_null modifier with
      | None, None => get o b <> Undefined
      | e, m =>
          exists blk, own o b = Some blk /\ has_names e m (children blk) = true
      end
  end.

(** A block tree has at most three levels: modifier-named children of the
    block have no children, and no grandchild of the block has any. *)
Definition three_levels (n : SASSObjectItem) : Prop :=
  height n <= 3 /\
  Forall (fun c =>
            (is_modifier_named c = true -> children c = []) /\
            Forall (fun g => children g = []) (children c))
         (children n).

(** An attribute value with two spaces between its two words. *)
Definition double_space_markup : string := "<p class='x  y'>".

(** An attribute value with a line break between its two words. *)
Definition line_break_markup : string :=
  ("<p class='card" ++ str1 newline ++ "btn'>")%string.

(** Two class attributes, one in double and one in single quotes, behind
    an attribute that is not a class attribute. *)
Definition two_quotes_markup : string :=
  ("<div id='i' className=" ++ dq ++ "a b" ++ dq ++ " class='c'>")%string.

(** ** Vocabulary of the further properties *)

(** [key] names a member of [Object.prototype]. *)
Definition is_prototype_key (key : string) : bool :=
  existsb (String.eqb key) Object_prototype_keys.

(** The block of a class name, [None] when the loop passes over it. *)
Definition block_of (className : string) : option string :=
  or_null (fst (fst (splitClassNameByBEMRule className))).

(** The class name has a block and, with it, an element or a modifier. *)
Definition has_child_part (className : string) : bool :=
  let '(block, element, modifier) := splitClassNameByBEMRule className in
  match or_null block with
  | None => false
  | Some _ =>
      match or_null element, or_null modifier with
      | None, None => false
      | _, _ => true
      end
  end.

(** Every class name with an element or a modifier comes after a class name
    that is its block alone, and that block is not named like a member of
    [Object.prototype].  [seen] lists the blocks declared so far. *)
Fixpoint declared_first (seen : list string) (classNames : list string)
  : bool :=
  match classNames with
  | [] => true
  | t :: rest =>
      match block_of t with
      | None => declared_first seen rest
      | Some b =>
          if has_child_part t then
            existsb (String.eqb b) seen && declared_first seen rest
          else
            declared_first (if is_prototype_key b then seen else b :: seen)
                           rest
      end
  end.

(** No class name with an element or a modifier has a block named like a
    member of [Object.prototype]. *)
Definition no_prototype_parent (classNames : list string) : bool :=
  forallb (fun t =>
             match block_of t with
             | Some b => negb (has_child_part t && is_prototype_key b)
             | None => true
             end) classNames.

(** The block names of the class names in the order of their first
    occurrence, those named like a member of [Object.prototype] left out;
    [acc] holds the names found so far. *)
Fixpoint block_keys (acc : list string) (classNames : list string)
  : list string :=
  match classNames with
  | [] => acc
  | t :: rest =>
      match block_of t with
      | None => block_keys acc rest
      | Some b =>
          if is_prototype_key b || existsb (String.eqb b) acc
          then block_keys acc rest
          else block_keys (acc ++ [b]) rest
      end
  end.


(** ** Enumeration of the own properties *)

(** The entries of the object in the order [Object.keys], [Object.values]
    and [for-in] visit them: array-index keys first, in ascending order,
    then the other keys in creation order. *)
Fixpoint index_entries_keyed (o : ISASSObject)
  : list (N * (string * SASSObjectItem)) :=
  match o with
  | [] => []
  | (k, n) :: o' =>
      match array_index k with
      | Some i => insert_index i (k, n) (index_entries_keyed o')
      | None => index_entries_keyed o'
      end
  end.

Fixpoint string_entries_keyed (o : ISASSObject) : ISASSObject :=
  match o with
  | [] => []
  | (k, n) :: o' =>
      match array_index k with
      | Some _ => string_entries_keyed o'
      | None => (k, n) :: string_entries_keyed o'
      end
  end.

Definition Object_entries (o : ISASSObject) : ISASSObject :=
  map snd (index_entries_keyed o) ++ string_entries_keyed o.

(** [Object.keys]. *)
Definition Object_keys (o : ISASSObject) : list string :=
  map fst (Object_entries o).

(** A list of distinct property names as enumeration returns them: the
    array indices in ascending order, then the others as they stand. *)
Fixpoint index_names (keys : list string) : list (N * string) :=
  match keys with
  | [] => []
  | k :: ks =>
      match array_index k with
      | Some i => insert_index i k (index_names ks)
      | None => index_names ks
      end
  end.

Fixpoint string_names (keys : list string) : list string :=
  match keys with
  | [] => []
  | k :: ks =>
      match array_index k with
      | Some _ => string_names ks
      | None => k :: string_names ks
      end
  end.

Definition enumeration_order (keys : list string) : list string :=
  map snd (index_names keys) ++ string_names keys.

(** The iteration of [Star] inside [rmatch], under a name of its own. *)
Definition star_loop (r1 : regex) (k : mstate -> option mstate)
  : nat -> mstate -> option mstate :=
  fix loop (fuel : nat) (st : mstate) {struct fuel} : option mstate :=
    match fuel with
    | 0 => k st
    | S fuel' =>
        match rmatch r1 st (fun st1 =>
                if (String.length (ms_rest st1) <? String.length (ms_rest st))%nat
                then loop fuel' st1 else None) with
        | Some res => Some res
        | None => k st
        end
    end.

(** Characters of the name pattern: letters, digits and the hyphen. *)
Definition name_char (c : ascii) : bool := alnum c || Ascii.eqb "-" c.

(** A word of a BEM name: letters and digits, at least one. *)
Definition bem_word (w : string) : bool :=
  negb (String.eqb w EmptyString) && string_forall alnum w.

(** Further words of a name, each behind a hyphen. *)
Fixpoint hyphen_tail (ws : list string) : string :=
  match ws with
  | [] => EmptyString
  | w :: ws' => ("-" ++ w ++ hyphen_tail ws')%string
  end.

(** A name made of words joined by single hyphens, such as [sub-title]. *)
Definition bem_name (ws : list string) : string :=
  match ws with
  | [] => EmptyString
  | w :: ws' => (w ++ hyphen_tail ws')%string
  end.

Definition bem_words (ws : list string) : bool :=
  match ws with
  | [] => false
  | _ => forallb bem_word ws
  end.

Definition bem_words_opt (ws : option (list string)) : bool :=
  match ws with
  | Some l => bem_words l
  | None => true
  end.

(** The class name written from a block, an optional element and an
    optional modifier by the BEM convention. *)
Definition bem_class (block : list string) (element modifier : option (list string))
  : string :=
  (bem_name block
   ++ match element with
      | Some e => "__" ++ bem_name e
      | None => EmptyString
      end
   ++ match modifier with
      | Some m => "--" ++ bem_name m
      | None => EmptyString
      end)%string.

(** The input ahead lets the name pattern go no further: it is empty, or
    starts with a character that is neither a letter or digit nor a hyphen
    followed by one. *)
Definition name_stops (r : string) : bool :=
  match r with
  | EmptyString => true
  | String c r' =>
      negb (alnum c) &&
      (negb (Ascii.eqb "-" c) ||
       match r' with
       | EmptyString => true
       | String d _ => negb (alnum d)
       end)
  end.

(** No hyphen of the text is followed by another one or ends the text. *)
Fixpoint single_hyphens (s : string) : bool :=
  match s with
  | EmptyString => true
  | String c s' =>
      (negb (Ascii.eqb "-" c) ||
       match s' with
       | EmptyString => false
       | String d _ => negb (Ascii.eqb "-" d)
       end) && single_hyphens s'
  end.

(** The input ahead does not start with a letter or digit. *)
Definition alnum_stops (r : string) : Prop :=
  match r with
  | EmptyString => True
  | String c _ => alnum c = false
  end.

(** Characters of a class name handed to the builder: neither a space nor
    a quote. *)
Definition token_char (c : ascii) : bool :=
  negb (Ascii.eqb " " c) && not_quote c.

(** Number of nodes of a tree. *)
Fixpoint node_count (n : SASSObjectItem) : nat :=
  match n with
  | mkItem _ kids =>
      S ((fix each (l : list SASSObjectItem) : nat :=
            match l with
            | [] => 0
            | c :: l' => node_count c + each l'
            end) kids)
  end.

(** ** The command *)

(** What the command leaves behind when it completes: the text written to
    the clipboard and the information message shown. *)
Record command_effects : Type := mkEffects {
  clipboard_text : string;
  information_message : string
}.

(** The callback [activate] registers for the command
    [generate-sass-from-html-jsx.copySass] (canonical file).
    [activeTextEditor] is the text of the selection of the active editor,
    [None] without an active editor: nothing is done then.  An error thrown
    by [extractSCSS] leaves the callback before anything is written. *)
Definition copySass (localeCompare : string -> string -> Z)
  (activeTextEditor : option string) : completion (option command_effects) :=
  match activeTextEditor with
  | None => Normal None
  | Some selectedText =>
      let classNames := getAllClassName selectedText in
      scssObject <- extractSCSS localeCompare classNames ;;
      Normal (Some (mkEffects (generateSCSS scssObject) "Sass content copied"))
  end.

(** ** The earlier serializer, [src/extension.ts] *)

(** No indentation, no placeholder line, no blank line between blocks. *)
Fixpoint parseToSCSS_legacy (obj : SASSObjectItem) (parentSelector : string)
  {struct obj} : string :=
  match obj with
  | mkItem name kids =>
      let currentSelector :=
        (if negb (truthy (Some parentSelector)) then "." ++ name
         else "&" ++ name)%string in
      (currentSelector ++ " {" ++ str1 newline
       ++ (fix each (l : list SASSObjectItem) : string :=
             match l with
             | [] => EmptyString
             | child :: l' => parseToSCSS_legacy child currentSelector ++ each l'
             end) kids
       ++ "}" ++ str1 newline)%string
  end.

(** The value returned; the object is also written to the console. *)
Definition generateSCSS_legacy (sassObject : ISASSObject) : string :=
  fold_left (fun result block =>
               (result ++ parseToSCSS_legacy block EmptyString)%string)
            (Object_values sassObject) EmptyString.

(* ================================================================== *)
(** * Properties *)

(** ** Strings *)

Lemma append_empty_r (s : string) : (s ++ EmptyString)%string = s.
Proof. induction s as [|c s IH]; simpl; [reflexivity | now rewrite IH]. Qed.

Lemma append_assoc (a b c : string) :
  ((a ++ b) ++ c)%string = (a ++ (b ++ c))%string.
Proof. induction a as [|x a IH]; simpl; [reflexivity | now rewrite IH]. Qed.

Lemma string_forall_app (p : ascii -> bool) (a b : string) :
  string_forall p (a ++ b) = string_forall p a && string_forall p b.
Proof.
  induction a as [|x a IH]; simpl; [reflexivity|].
  now rewrite IH, andb_assoc.
Qed.

Lemma string_forall_impl (p p' : ascii -> bool) (s : string) :
  (forall c, p c = true -> p' c = true) ->
  string_forall p s = true -> string_forall p' s = true.
Proof.
  intros Himp. induction s as [|x s IH]; simpl; [reflexivity|].
  rewrite !andb_true_iff. intros [Hx Hs]. split; [now apply Himp | now apply IH].
Qed.

Lemma count_char_app (c : ascii) (a b : string) :
  count_char c (a ++ b) = count_char c a + count_char c b.
Proof. induction a as [|x a IH]; simpl; [reflexivity | rewrite IH; lia]. Qed.

(** ** The matcher consumes a word of the language of the expression *)

Section MatcherSound.

Local Ltac here st :=
  exists EmptyString, st;
  split; [ constructor
         | split; [ reflexivity
                  | split; [ now rewrite append_empty_r | assumption ] ] ].

Lemma rmatch_sound (r : regex) :
  forall st k res,
    rmatch r st k = Some res ->
    exists w st',
      lang r w /\
      ms_rest st = (w ++ ms_rest st')%string /\
      ms_matched st' = (ms_matched st ++ w)%string /\
      k st' = Some res.
Proof.
  induction r as [ | p | r1 IH1 r2 IH2 | r1 IH1 | r1 IH1 | r1 IH1 | | ];
    intros st k res H; simpl in H.
  - here st.
  - destruct (ms_rest st) as [|c s'] eqn:Hrest; [discriminate|].
    destruct (p c) eqn:Hp; [|discriminate].
    exists (str1 c), (consume c s' st). repeat split; try assumption.
    now constructor.
  - apply IH1 in H. destruct H as (w1 & st1 & L1 & R1 & M1 & H).
    apply IH2 in H. destruct H as (w2 & st2 & L2 & R2 & M2 & H).
    exists (w1 ++ w2)%string, st2. repeat split; try assumption.
    + now constructor.
    + now rewrite R1, R2, append_assoc.
    + now rewrite M2, M1, append_assoc.
  - revert H. generalize (String.length (ms_rest st)) as fuel.
    intro fuel. revert st. induction fuel as [|fuel IHf]; intros st H.
    + here st.
    + match type of H with
      | match ?m with _ => _ end = _ => destruct m as [res0|] eqn:E
      end.
      * injection H as ->. apply IH1 in E.
        destruct E as (w1 & st1 & L1 & R1 & M1 & E).
        destruct (String.length (ms_rest st1) <? String.length (ms_rest st))%nat;
          [|discriminate].
        apply IHf in E. destruct E as (w2 & st2 & L2 & R2 & M2 & E).
        exists (w1 ++ w2)%string, st2. repeat split; try assumption.
        -- now constructor.
        -- now rewrite R1, R2, append_assoc.
        -- now rewrite M2, M1, append_assoc.
      * here st.
  - destruct (rmatch r1 st k) as [res0|] eqn:E.
    + injection H as ->. apply IH1 in E.
      destruct E as (w & st' & L & R & M & E).
      exists w, st'. repeat split; try assumption. now constructor.
    + here st.
  - apply IH1 in H. destruct H as (w & st1 & L & R & M & H).
    exists w, (capture st st1). repeat split; try assumption.
    now constructor.
  - destruct (ms_pos st =? 0)%nat; [|discriminate]. here st.
  - destruct (ms_rest st) eqn:E; [|discriminate]. rewrite <- E. here st.
Qed.

End MatcherSound.

Lemma attempt_sound (r : regex) (pos : nat) (s : string) (m : match_result) :
  attempt r pos s = Some m ->
  lang r (m_0 m) /\ s = (m_0 m ++ m_after m)%string /\ m_index m = pos.
Proof.
  unfold attempt. intros H.
  destruct (rmatch r _ Some) as [st|] eqn:E; [|discriminate].
  injection H as <-. simpl.
  apply rmatch_sound in E. destruct E as (w & st' & L & R & M & E).
  injection E as ->. simpl in *. subst. auto.
Qed.

Lemma search_sound (r : regex) (s : string) :
  forall pos m,
    search r pos s = Some m ->
    lang r (m_0 m) /\
    exists skipped,
      s = (skipped ++ m_0 m ++ m_after m)%string /\
      m_index m = pos + String.length skipped.
Proof.
  induction s as [|c s IH]; intros pos m H; simpl in H.
  - destruct (attempt r pos EmptyString) as [m'|] eqn:E; [|discriminate].
    injection H as ->. apply attempt_sound in E. destruct E as (L & S0 & I).
    split; [assumption|]. exists EmptyString. simpl. split; [assumption | lia].
  - destruct (attempt r pos (String c s)) as [m'|] eqn:E.
    + injection H as ->. apply attempt_sound in E. destruct E as (L & S0 & I).
      split; [assumption|]. exists EmptyString. simpl. split; [assumption | lia].
    + apply IH in H. destruct H as (L & sk & S0 & I).
      split; [assumption|]. exists (String c sk). simpl.
      split; [now rewrite S0 | lia].
Qed.

Lemma lang_accepts (r : regex) (w : string) :
  lang r w -> string_forall (accepts r) w = true.
Proof.
  induction 1 as [ | p c Hp | r1 r2 w1 w2 _ IH1 _ IH2 | r
                 | r w1 w2 _ IH1 _ IH2 | r | r w _ IH | r w _ IH | | ];
    simpl in *; try reflexivity; try assumption.
  - now rewrite Hp.
  - rewrite string_forall_app. apply andb_true_iff. split.
    + eapply string_forall_impl; [|exact IH1]. intros c ->. reflexivity.
    + eapply string_forall_impl; [|exact IH2]. intros c ->. apply orb_true_r.
  - rewrite string_forall_app. apply andb_true_iff. split; [exact IH1 | exact IH2].
Qed.

(** ** What the tokenizer returns *)

Ltac inv H := inversion H; subst; clear H.

Lemma accepts_NAME (c : ascii) : accepts NAME c = true -> bem_char c = true.
Proof.
  unfold bem_char, NAME, Plus. cbn [accepts Lit].
  destruct (alnum c); [reflexivity|].
  destruct (Ascii.eqb "-" c) eqn:E.
  - apply Ascii.eqb_eq in E. subst c. reflexivity.
  - discriminate.
Qed.

Lemma lang_NAME_chars (w : string) :
  lang NAME w -> string_forall bem_char w = true.
Proof.
  intros H. apply lang_accepts in H.
  eapply string_forall_impl; [|exact H]. apply accepts_NAME.
Qed.

Ltac lang_inv :=
  repeat match goal with
         | H : lang (Seq _ _) _ |- _ => inv H
         | H : lang (Group _) _ |- _ => inv H
         | H : lang (Chr _) _ |- _ => inv H
         | H : lang Bol _ |- _ => inv H
         | H : lang Eol _ |- _ => inv H
         | H : Ascii.eqb _ _ = true |- _ => apply Ascii.eqb_eq in H; subst
         end.

Lemma lang_BLOCK (w : string) : lang BLOCK_REGEX w -> block_name w = true.
Proof.
  unfold BLOCK_REGEX. intros H. lang_inv. simpl. now apply lang_NAME_chars.
Qed.

Lemma lang_ELEMENT (w : string) : lang ELEMENT_REGEX w -> element_name w = true.
Proof.
  unfold ELEMENT_REGEX. cbn [Lit]. intros H. lang_inv.
  match goal with H : lang NAME _ |- _ => apply lang_NAME_chars in H; rename H into Hn end.
  unfold element_name. simpl.
  destruct (ascii_dec "_" "_") as [_|N]; [|now elim N].
  match type of Hn with _ _ ?w = _ => destruct w end; exact Hn.
Qed.

Lemma lang_MODIFIER (w : string) :
  lang MODIFIER_REGEX w -> modifier_name w = true.
Proof.
  unfold MODIFIER_REGEX. cbn [Lit]. intros H. lang_inv.
  match goal with H : lang NAME _ |- _ => apply lang_NAME_chars in H; rename H into Hn end.
  unfold modifier_name. simpl. rewrite append_empty_r.
  destruct (ascii_dec "-" "-") as [_|N]; [|now elim N].
  match type of Hn with _ _ ?w = _ => destruct w end; exact Hn.
Qed.

Lemma str_match_lang (r : regex) (s : string) (m : match_result) :
  str_match r s = Some m -> lang r (m_0 m).
Proof. intros H. now apply search_sound in H. Qed.

Lemma or_null_Some (v : option string) (s : string) :
  or_null v = Some s -> v = Some s.
Proof. unfold or_null. destruct (truthy v); [auto | discriminate]. Qed.

Lemma or_null_match0 (r : regex) (c s : string) :
  or_null (match0 (str_match r c)) = Some s -> lang r s.
Proof.
  intros H. apply or_null_Some in H.
  destruct (str_match r c) as [m|] eqn:E; [|discriminate].
  injection H as <-. now apply str_match_lang in E.
Qed.

(** The three components are a block name, a name that starts with two
    underscores and a name that starts with two hyphens. *)
Lemma splitClassNameByBEMRule_names (c : string) (b e m : option string) :
  splitClassNameByBEMRule c = (b, e, m) ->
  (forall s, b = Some s -> block_name s = true) /\
  (forall s, e = Some s -> element_name s = true) /\
  (forall s, m = Some s -> modifier_name s = true).
Proof.
  unfold splitClassNameByBEMRule.
  destruct (str_match BLOCK_REGEX c) as [mb|] eqn:Eb; intros H; inv H.
  - repeat split; intros s Hs.
    + inv Hs. apply lang_BLOCK. now apply str_match_lang in Eb.
    + apply lang_ELEMENT. now apply or_null_match0 in Hs.
    + apply lang_MODIFIER. now apply or_null_match0 in Hs.
  - repeat split; intros s Hs; discriminate.
Qed.

Lemma prefix_head (a : ascii) (s1 s : string) :
  String.prefix (String a s1) s = true ->
  exists s', s = String a s' /\ String.prefix s1 s' = true.
Proof.
  destruct s as [|b s]; cbn [String.prefix]; [discriminate|].
  destruct (ascii_dec a b) as [<-|]; [eauto | discriminate].
Qed.

Lemma element_not_modifier (s : string) :
  element_name s = true -> modifier_name s = true -> False.
Proof.
  unfold element_name, modifier_name. rewrite !andb_true_iff.
  intros [He _] [Hm _].
  apply prefix_head in He, Hm.
  destruct He as (s1 & -> & _), Hm as (s2 & Hm & _). discriminate.
Qed.

(** ** Lists of nodes *)

Lemma name_is_true (name : string) (c : SASSObjectItem) :
  name_is name c = true <-> parent c = name.
Proof. unfold name_is. apply String.eqb_eq. Qed.

Lemma find_name_Some (name : string) (ch : list SASSObjectItem) c :
  find (name_is name) ch = Some c -> In c ch /\ parent c = name.
Proof.
  intros H. apply find_some in H. now rewrite name_is_true in H.
Qed.

Lemma find_name_None (name : string) (ch : list SASSObjectItem) :
  find (name_is name) ch = None -> ~ In name (names ch).
Proof.
  intros H Hin. apply in_map_iff in Hin. destruct Hin as (c & Hc & Hin).
  eapply find_none in H; [|exact Hin].
  apply name_is_true in Hc. congruence.
Qed.

Lemma existsb_name_false (name : string) (ch : list SASSObjectItem) :
  existsb (name_is name) ch = false -> ~ In name (names ch).
Proof.
  intros H Hin. apply in_map_iff in Hin. destruct Hin as (c & Hc & Hin).
  assert (existsb (name_is name) ch = true); [|congruence].
  apply existsb_exists. exists c. split; [assumption | now apply name_is_true].
Qed.

Lemma NoDup_names_snoc (name : string) (ch : list SASSObjectItem) :
  NoDup (names ch) -> ~ In name (names ch) -> NoDup (names (ch ++ [leaf name])).
Proof.
  intros Hnd Hnin. unfold names. rewrite map_app. simpl.
  apply NoDup_app; [assumption | repeat constructor; auto |].
  intros x Hx [<-|[]]. contradiction.
Qed.

Lemma names_update_first p f (l : list SASSObjectItem) :
  (forall x, parent (f x) = parent x) ->
  names (update_first p f l) = names l.
Proof.
  intros Hf. induction l as [|x l IH]; simpl; [reflexivity|].
  destruct (p x); simpl; [now rewrite Hf | now rewrite IH].
Qed.

Lemma Forall_update_first {A : Type} (P : A -> Prop) p f (l : list A) x0 :
  find p l = Some x0 ->
  Forall P l -> (P x0 -> P (f x0)) -> Forall P (update_first p f l).
Proof.
  intros Hfind Hall Hf. induction l as [|x l IH]; simpl in *; [discriminate|].
  inv Hall. destruct (p x).
  - inv Hfind. constructor; auto.
  - constructor; auto.
Qed.

(** ** The builder keeps the shape of the forest *)

Lemma leaf_modifier_node (m : string) :
  modifier_name m = true -> modifier_node (leaf m).
Proof. intros H. split; [exact H | reflexivity]. Qed.

Lemma leaf_element_node (e : string) :
  element_name e = true -> element_node (leaf e).
Proof. intros H. repeat split; simpl; [exact H | constructor | constructor]. Qed.

Lemma ensure_element_ok (e : string) (ch : list SASSObjectItem) :
  element_name e = true ->
  block_children_ok ch -> block_children_ok (ensure_element e ch).
Proof.
  intros He [Hnd Hall]. unfold ensure_element.
  destruct (find (name_is e) ch) eqn:E; [now split|].
  split.
  - apply NoDup_names_snoc; [assumption | now apply find_name_None].
  - apply Forall_app. split; [assumption|].
    constructor; [|constructor]. left. now apply leaf_element_node.
Qed.

Lemma ensure_block_modifier_ok (m : string) (ch : list SASSObjectItem) :
  modifier_name m = true ->
  block_children_ok ch -> block_children_ok (ensure_block_modifier m ch).
Proof.
  intros Hm [Hnd Hall]. unfold ensure_block_modifier.
  destruct (existsb (name_is m) ch) eqn:E; [now split|].
  split.
  - apply NoDup_names_snoc; [assumption | now apply existsb_name_false].
  - apply Forall_app. split; [assumption|].
    constructor; [|constructor]. right. now apply leaf_modifier_node.
Qed.

(** The node the element lookup selects is never a modifier node: its name
    starts with two underscores. *)
Lemma ensure_element_modifier_ok (e m : string) (ch : list SASSObjectItem) :
  element_name e = true -> modifier_name m = true ->
  block_children_ok ch -> block_children_ok (ensure_element_modifier e m ch).
Proof.
  intros He Hm [Hnd Hall]. unfold ensure_element_modifier.
  destruct (find (name_is e) ch) as [el|] eqn:E; [|now split].
  destruct (existsb (name_is m) (children el)) eqn:Ex; [now split|].
  split.
  - rewrite names_update_first; [assumption | reflexivity].
  - eapply Forall_update_first; [exact E | exact Hall |].
    apply find_name_Some in E. destruct E as [_ Hname].
    intros [(Hel & Hnd' & Hmods)|(Hmod & _)].
    + left. repeat split; simpl.
      * exact Hel.
      * apply NoDup_names_snoc; [assumption | now apply existsb_name_false].
      * apply Forall_app. split; [assumption|].
        constructor; [|constructor]. now apply leaf_modifier_node.
    + exfalso. rewrite Hname in Hmod. eapply element_not_modifier; eassumption.
Qed.

Lemma add_to_block_ok (e m : option string) (ch : list SASSObjectItem) :
  (forall s, e = Some s -> element_name s = true) ->
  (forall s, m = Some s -> modifier_name s = true) ->
  block_children_ok ch -> block_children_ok (add_to_block e m ch).
Proof.
  intros He Hm Hok. unfold add_to_block.
  destruct e as [e|], m as [m|]; simpl.
  - apply ensure_element_modifier_ok; auto. apply ensure_element_ok; auto.
  - apply ensure_element_ok; auto.
  - apply ensure_block_modifier_ok; auto.
  - assumption.
Qed.

(** ** The object as a map *)

Lemma own_In (o : ISASSObject) (key : string) (n : SASSObjectItem) :
  own o key = Some n -> In (key, n) o.
Proof.
  induction o as [|[k m] o IH]; simpl; [discriminate|].
  destruct (String.eqb k key) eqn:E.
  - apply String.eqb_eq in E. intros H. inv H. now left.
  - intros H. right. now apply IH.
Qed.

Lemma get_Item (o : ISASSObject) (key : string) (n : SASSObjectItem) :
  get o key = Item n <-> own o key = Some n.
Proof.
  unfold get. destruct (own o key) as [n'|].
  - split; intros H; now inv H.
  - destruct (existsb _ _); split; discriminate.
Qed.

Lemma get_Undefined (o : ISASSObject) (key : string) :
  get o key = Undefined -> own o key = None.
Proof. unfold get. destruct (own o key); [discriminate | reflexivity]. Qed.

Lemma Forall_set (P : string * SASSObjectItem -> Prop) o key n :
  Forall P o -> P (key, n) -> Forall P (set o key n).
Proof.
  intros Hall Hn. induction o as [|[k m] o IH]; simpl.
  - now constructor.
  - inv Hall. destruct (String.eqb k key) eqn:E.
    + apply String.eqb_eq in E. subst. now constructor.
    + constructor; auto.
Qed.

Lemma Forall_set_children (P : string * SASSObjectItem -> Prop) o key blk ch :
  own o key = Some blk ->
  Forall P o ->
  (P (key, blk) -> P (key, mkItem (parent blk) ch)) ->
  Forall P (set_children o key ch).
Proof.
  intros Hown Hall Hn. induction o as [|[k m] o IH]; simpl in *; [constructor|].
  inv Hall. destruct (String.eqb k key) eqn:E.
  - apply String.eqb_eq in E. inv Hown. constructor; auto.
  - constructor; auto.
Qed.

(** ** Sorting permutes *)

Lemma insert_by_perm cmp x (l : list SASSObjectItem) :
  Permutation (insert_by cmp x l) (x :: l).
Proof.
  induction l as [|y l IH]; simpl; [reflexivity|].
  destruct (cmp x y <=? 0)%Z; [reflexivity|].
  rewrite IH. apply perm_swap.
Qed.

Lemma sort_by_perm cmp (l : list SASSObjectItem) :
  Permutation (sort_by cmp l) l.
Proof.
  induction l as [|x l IH]; simpl; [reflexivity|].
  rewrite insert_by_perm. now constructor.
Qed.

Lemma block_children_ok_perm (l l' : list SASSObjectItem) :
  Permutation l l' -> block_children_ok l -> block_children_ok l'.
Proof.
  intros Hp [Hnd Hall]. split.
  - eapply Permutation_NoDup; [|exact Hnd]. now apply Permutation_map.
  - eapply Permutation_Forall; eassumption.
Qed.

(** ** The loop and the sorting pass keep the shape *)

Lemma extractSCSS_body_ok (o o' : ISASSObject) (className : string) :
  forest_ok o -> extractSCSS_body o className = Normal o' -> forest_ok o'.
Proof.
  intros Hok. unfold extractSCSS_body.
  destruct (splitClassNameByBEMRule className) as [[b e] m] eqn:Es.
  apply splitClassNameByBEMRule_names in Es. destruct Es as (Hb & He & Hm).
  destruct (or_null b) as [bn|] eqn:Eb; [|intros H; now inv H].
  apply or_null_Some in Eb. apply Hb in Eb.
  assert (He' : forall s, or_null e = Some s -> element_name s = true)
    by (intros s Hs; apply He; now apply or_null_Some).
  assert (Hm' : forall s, or_null m = Some s -> modifier_name s = true)
    by (intros s Hs; apply Hm; now apply or_null_Some).
  assert (Hnew : forest_ok (set o bn (mkItem bn []))).
  { apply Forall_set; [assumption|]. repeat split; simpl; auto; constructor. }
  assert (Hadd : forall blk, get o bn = Item blk ->
            forest_ok (set_children o bn
                         (add_to_block (or_null e) (or_null m) (children blk)))).
  { intros blk G. apply get_Item in G.
    eapply Forall_set_children; [exact G | exact Hok |].
    simpl. intros (Hp & Hn & Hch).
    split; [assumption | split; [assumption | now apply add_to_block_ok]]. }
  destruct (get o bn) as [|blk|] eqn:G; simpl;
    destruct (or_null e) as [en|], (or_null m) as [mn|];
    intros H; inv H; auto; exact (Hadd _ eq_refl).
Qed.

Lemma extractSCSS_loop_ok (classNames : list string) :
  forall o o',
    forest_ok o -> extractSCSS_loop o classNames = Normal o' -> forest_ok o'.
Proof.
  induction classNames as [|c cs IH]; simpl; intros o o' Hok H.
  - now inv H.
  - destruct (extractSCSS_body o c) as [o1|] eqn:E; simpl in H; [|discriminate].
    eapply IH; [|exact H]. eapply extractSCSS_body_ok; eassumption.
Qed.

Lemma sort_blocks_ok localeCompare (o : ISASSObject) :
  forest_ok o -> forest_ok (sort_blocks localeCompare o).
Proof.
  unfold forest_ok, sort_blocks. intros H. apply Forall_map.
  eapply Forall_impl; [|exact H]. intros [k n] (Hp & Hn & Hch). simpl in *.
  split; [assumption | split; [assumption|]].
  eapply block_children_ok_perm; [|exact Hch].
  symmetry. apply sort_by_perm.
Qed.

Lemma extractSCSS_ok localeCompare (classNames : list string) f :
  extractSCSS localeCompare classNames = Normal f -> forest_ok f.
Proof.
  unfold extractSCSS. intros H.
  destruct (extractSCSS_loop [] classNames) as [o|] eqn:E; simpl in H;
    [|discriminate].
  inv H. apply sort_blocks_ok.
  eapply extractSCSS_loop_ok; [|exact E]. constructor.
Qed.

(** ** What the shape gives *)

Lemma distinct_children_unfold (n : SASSObjectItem) :
  distinct_children n <->
  NoDup (names (children n)) /\ Forall distinct_children (children n).
Proof.
  destruct n as [name kids]. simpl.
  enough (E : forall l,
             (fix each (l : list SASSObjectItem) : Prop :=
                match l with
                | [] => True
                | c :: l' => distinct_children c /\ each l'
                end) l <-> Forall distinct_children l) by now rewrite E.
  induction l as [|c l IH]; split; intros H.
  - constructor.
  - exact I.
  - destruct H as [Hc Hl]. constructor; [assumption | now apply IH].
  - inv H. split; [assumption | now apply IH].
Qed.

Lemma height_unfold (n : SASSObjectItem) (h : nat) :
  Forall (fun c => height c <= h) (children n) -> height n <= S h.
Proof.
  destruct n as [name kids]. simpl. intros H. apply le_n_S.
  induction H as [|c l Hc _ IH]; [lia|]. apply Nat.max_lub; assumption.
Qed.

Lemma all_names_unfold (p : string -> bool) (n : SASSObjectItem) :
  all_names p n = p (parent n) && forallb (all_names p) (children n).
Proof.
  destruct n as [name kids]. reflexivity.
Qed.

Lemma bem_char_not_brace (c : ascii) :
  bem_char c = true -> negb (is_brace c) = true.
Proof.
  unfold is_brace. intros H.
  destruct (Ascii.eqb c "{") eqn:E1;
    [apply Ascii.eqb_eq in E1; subst; discriminate|].
  destruct (Ascii.eqb c "}") eqn:E2;
    [apply Ascii.eqb_eq in E2; subst; discriminate|].
  reflexivity.
Qed.

Lemma bem_brace_free (s : string) :
  string_forall bem_char s = true -> brace_free s = true.
Proof. apply string_forall_impl, bem_char_not_brace. Qed.

Lemma modifier_node_facts (c : SASSObjectItem) :
  modifier_node c ->
  distinct_children c /\ height c <= 1 /\ all_names brace_free c = true.
Proof.
  intros [Hn Hc]. unfold modifier_name in Hn. apply andb_true_iff in Hn.
  destruct Hn as [_ Hn]. repeat split.
  - apply distinct_children_unfold. rewrite Hc. split; constructor.
  - apply height_unfold. rewrite Hc. constructor.
  - rewrite all_names_unfold, Hc. simpl. rewrite andb_true_r.
    now apply bem_brace_free.
Qed.

Lemma element_node_facts (c : SASSObjectItem) :
  element_node c ->
  distinct_children c /\ height c <= 2 /\ all_names brace_free c = true.
Proof.
  intros (Hn & Hnd & Hmods). unfold element_name in Hn.
  apply andb_true_iff in Hn. destruct Hn as [_ Hn]. repeat split.
  - apply distinct_children_unfold. split; [assumption|].
    eapply Forall_impl; [|exact Hmods]. intros g Hg.
    now apply modifier_node_facts in Hg.
  - apply height_unfold. eapply Forall_impl; [|exact Hmods]. intros g Hg.
    now apply modifier_node_facts in Hg.
  - rewrite all_names_unfold. apply andb_true_iff. split.
    + now apply bem_brace_free.
    + apply forallb_forall. intros g Hg.
      rewrite Forall_forall in Hmods. apply Hmods in Hg.
      now apply modifier_node_facts in Hg.
Qed.

Lemma block_node_facts (key : string) (n : SASSObjectItem) :
  block_node key n ->
  distinct_children n /\ height n <= 3 /\ all_names brace_free n = true.
Proof.
  intros (Hp & Hn & Hnd & Hall). subst key.
  assert (Hc : forall c, In c (children n) ->
            distinct_children c /\ height c <= 2 /\
            all_names brace_free c = true).
  { intros c Hin. rewrite Forall_forall in Hall.
    destruct (Hall c Hin) as [He|Hm].
    - now apply element_node_facts.
    - apply modifier_node_facts in Hm. destruct Hm as (? & ? & ?).
      repeat split; auto. }
  repeat split.
  - apply distinct_children_unfold. split; [assumption|].
    apply Forall_forall. intros c Hin. now apply Hc.
  - apply height_unfold. apply Forall_forall. intros c Hin. now apply Hc.
  - rewrite all_names_unfold. apply andb_true_iff. split.
    + now apply bem_brace_free.
    + apply forallb_forall. intros c Hin. now apply Hc.
Qed.

(** ** A class name seen before changes nothing *)

Lemma existsb_find {A : Type} (p : A -> bool) (l : list A) :
  existsb p l = true -> exists x, find p l = Some x.
Proof.
  induction l as [|x l IH]; simpl; [discriminate|].
  destruct (p x); [eauto | exact IH].
Qed.

Lemma find_app_Some {A : Type} (p : A -> bool) (l l' : list A) x :
  find p l = Some x -> find p (l ++ l') = Some x.
Proof.
  induction l as [|y l IH]; simpl; [discriminate|].
  destruct (p y); auto.
Qed.

Lemma find_app_None {A : Type} (p : A -> bool) (l l' : list A) :
  find p l = None -> find p (l ++ l') = find p l'.
Proof.
  induction l as [|y l IH]; simpl; [reflexivity|].
  destruct (p y); [discriminate | exact IH].
Qed.

Lemma existsb_update_first {A : Type} (p q : A -> bool) f (l : list A) :
  (forall x, p (f x) = p x) ->
  existsb p (update_first q f l) = existsb p l.
Proof.
  intros Hf. induction l as [|x l IH]; simpl; [reflexivity|].
  destruct (q x); simpl; [now rewrite Hf | now rewrite IH].
Qed.

Lemma find_update_first {A : Type} (p q : A -> bool) f (l : list A) x :
  (forall y, p (f y) = p y) ->
  find p l = Some x ->
  find p (update_first q f l) = Some x \/
  find p (update_first q f l) = Some (f x).
Proof.
  intros Hf. induction l as [|y l IH]; simpl; [discriminate|].
  destruct (q y); simpl.
  - rewrite Hf. destruct (p y); [|auto]. intros H. inv H. now right.
  - destruct (p y); auto.
Qed.

Lemma find_update_first_same {A : Type} (q : A -> bool) f (l : list A) x :
  (forall y, q (f y) = q y) ->
  find q l = Some x -> find q (update_first q f l) = Some (f x).
Proof.
  intros Hf. induction l as [|y l IH]; simpl; [discriminate|].
  destruct (q y) eqn:E; simpl.
  - rewrite Hf, E. intros H. now inv H.
  - rewrite E. exact IH.
Qed.

Lemma name_is_push_child name c n :
  name_is name (push_child c n) = name_is name n.
Proof. reflexivity. Qed.

Lemma existsb_name_snoc name (l : list SASSObjectItem) :
  existsb (name_is name) (l ++ [leaf name]) = true.
Proof.
  rewrite existsb_app. simpl. unfold name_is at 2. simpl.
  rewrite String.eqb_refl. now rewrite orb_true_r.
Qed.

Lemma has_names_app e m (ch l : list SASSObjectItem) :
  has_names e m ch = true -> has_names e m (ch ++ l) = true.
Proof.
  unfold has_names. destruct e as [e|], m as [m|]; try reflexivity.
  - destruct (find (name_is e) ch) as [el|] eqn:E; [|discriminate].
    now rewrite (find_app_Some _ _ _ _ E).
  - rewrite existsb_app. now intros ->.
  - rewrite existsb_app. now intros ->.
Qed.

Lemma has_names_update e m e' m' (ch : list SASSObjectItem) :
  has_names e m ch = true ->
  has_names e m (update_first (name_is e') (push_child (leaf m')) ch) = true.
Proof.
  unfold has_names. destruct e as [e|], m as [m|]; try reflexivity.
  - destruct (find (name_is e) ch) as [el|] eqn:E; [|discriminate].
    intros Hm.
    destruct (find_update_first (name_is e) (name_is e')
                (push_child (leaf m')) ch el (name_is_push_child e (leaf m')) E)
      as [-> | ->]; [assumption|].
    simpl. rewrite existsb_app. now rewrite Hm.
  - now rewrite existsb_update_first.
  - now rewrite existsb_update_first.
Qed.

Lemma has_names_kept e m e' m' (ch : list SASSObjectItem) :
  has_names e m ch = true -> has_names e m (add_to_block e' m' ch) = true.
Proof.
  intros H. unfold add_to_block.
  assert (H1 : forall x, has_names e m (ensure_element x ch) = true).
  { intros x. unfold ensure_element.
    destruct (find (name_is x) ch); [assumption | now apply has_names_app]. }
  assert (H2 : forall x y l, has_names e m l = true ->
                 has_names e m (ensure_element_modifier x y l) = true).
  { intros x y l Hl. unfold ensure_element_modifier.
    destruct (find (name_is x) l) as [el|]; [|assumption].
    destruct (existsb (name_is y) (children el));
      [assumption | now apply has_names_update]. }
  assert (H3 : forall y l, has_names e m l = true ->
                 has_names e m (ensure_block_modifier y l) = true).
  { intros y l Hl. unfold ensure_block_modifier.
    destruct (existsb (name_is y) l); [assumption | now apply has_names_app]. }
  destruct e' as [e'|], m' as [m'|]; auto.
Qed.

Lemma has_names_added e m (ch : list SASSObjectItem) :
  has_names e m (add_to_block e m ch) = true.
Proof.
  unfold add_to_block, has_names. destruct e as [e|], m as [m|]; try reflexivity.
  - assert (Hel : exists el, find (name_is e) (ensure_element e ch) = Some el).
    { unfold ensure_element. destruct (find (name_is e) ch) as [el|] eqn:E.
      - eauto.
      - exists (leaf e). rewrite find_app_None by assumption. simpl.
        unfold name_is. simpl. now rewrite String.eqb_refl. }
    destruct Hel as [el Hel]. unfold ensure_element_modifier. rewrite Hel.
    destruct (existsb (name_is m) (children el)) eqn:Ex.
    + now rewrite Hel.
    + rewrite (find_update_first_same _ _ _ el); [|reflexivity|assumption].
      simpl. apply existsb_name_snoc.
  - unfold ensure_element. destruct (find (name_is e) ch) as [el|] eqn:E.
    + apply existsb_exists. exists el. apply find_some in E. exact E.
    + apply existsb_name_snoc.
  - unfold ensure_block_modifier.
    destruct (existsb (name_is m) ch) eqn:E; [exact E | apply existsb_name_snoc].
Qed.

Lemma has_names_fixed e m (ch : list SASSObjectItem) :
  has_names e m ch = true -> add_to_block e m ch = ch.
Proof.
  unfold add_to_block, has_names. destruct e as [e|], m as [m|]; try reflexivity.
  - destruct (find (name_is e) ch) as [el|] eqn:E; [|discriminate]. intros Hm.
    unfold ensure_element. rewrite E.
    unfold ensure_element_modifier. now rewrite E, Hm.
  - intros H. apply existsb_find in H. destruct H as [el H].
    unfold ensure_element. now rewrite H.
  - intros H. unfold ensure_block_modifier. now rewrite H.
Qed.

Lemma own_set (o : ISASSObject) (key key' : string) (n : SASSObjectItem) :
  own (set o key' n) key =
  if String.eqb key' key then Some n else own o key.
Proof.
  induction o as [|[k m] o IH]; simpl.
  - reflexivity.
  - destruct (String.eqb k key') eqn:E; simpl.
    + apply String.eqb_eq in E. subst k.
      destruct (String.eqb key' key); reflexivity.
    + destruct (String.eqb k key) eqn:E'; [|exact IH].
      apply String.eqb_eq in E'. subst k. now rewrite String.eqb_sym, E.
Qed.

Lemma own_set_children (o : ISASSObject) (key key' : string) blk ch :
  own o key' = Some blk ->
  own (set_children o key' ch) key =
  if String.eqb key' key then Some (mkItem (parent blk) ch) else own o key.
Proof.
  induction o as [|[k m] o IH]; simpl; [discriminate|].
  destruct (String.eqb k key') eqn:E; simpl.
  - apply String.eqb_eq in E. subst k. intros H. inv H.
    destruct (String.eqb key' key); reflexivity.
  - intros H. destruct (String.eqb k key) eqn:E'; [|now apply IH].
    apply String.eqb_eq in E'. subst k. now rewrite String.eqb_sym, E.
Qed.

Lemma set_children_same (o : ISASSObject) (key : string) blk :
  own o key = Some blk -> set_children o key (children blk) = o.
Proof.
  induction o as [|[k m] o IH]; simpl; [discriminate|].
  destruct (String.eqb k key).
  - intros H. inv H. now destruct blk.
  - intros H. now rewrite IH.
Qed.

(** The three things one turn of the loop can do to the object. *)
Lemma extractSCSS_body_cases (o o' : ISASSObject) (className : string) :
  extractSCSS_body o className = Normal o' ->
  o' = o \/
  (exists b, own o b = None /\ o' = set o b (mkItem b [])) \/
  (exists b blk e m,
      own o b = Some blk /\
      o' = set_children o b (add_to_block e m (children blk))).
Proof.
  unfold extractSCSS_body.
  destruct (splitClassNameByBEMRule className) as [[b e] m].
  destruct (or_null b) as [bn|]; [|intros H; inv H; now left].
  destruct (get o bn) as [|blk|] eqn:G; simpl;
    destruct (or_null e) as [en|] eqn:Ee, (or_null m) as [mn|] eqn:Em;
    intros H; inv H; auto.
  - right. left. exists bn. split; [now apply get_Undefined | reflexivity].
  - right. right. exists bn, blk, (Some en), (Some mn).
    split; [now apply get_Item | reflexivity].
  - right. right. exists bn, blk, (Some en), None.
    split; [now apply get_Item | reflexivity].
  - right. right. exists bn, blk, None, (Some mn).
    split; [now apply get_Item | reflexivity].
Qed.

Lemma covered_fixed (o : ISASSObject) (className : string) :
  covered o className -> extractSCSS_body o className = Normal o.
Proof.
  unfold covered, extractSCSS_body.
  destruct (splitClassNameByBEMRule className) as [[b e] m].
  destruct (or_null b) as [bn|]; [|reflexivity].
  assert (Hblk : forall e' m',
             (exists blk, own o bn = Some blk /\
                          has_names e' m' (children blk) = true) ->
             exists blk, get o bn = Item blk /\
               set_children o bn (add_to_block e' m' (children blk)) = o).
  { intros e' m' (blk & Hown & Hhas). exists blk.
    split; [now apply get_Item|].
    rewrite has_names_fixed by assumption. now apply set_children_same. }
  destruct (or_null e) as [en|], (or_null m) as [mn|]; intros H.
  1-3: apply Hblk in H; destruct H as (blk & -> & Hset); simpl;
       unfold add_to_block in Hset |- *; now rewrite Hset.
  destruct (get o bn); [now elim H | reflexivity | reflexivity].
Qed.

Lemma extractSCSS_body_covers (o o' : ISASSObject) (className : string) :
  extractSCSS_body o className = Normal o' -> covered o' className.
Proof.
  unfold covered, extractSCSS_body.
  destruct (splitClassNameByBEMRule className) as [[b e] m].
  destruct (or_null b) as [bn|]; [|trivial].
  assert (Hblk : forall blk e' m',
             get o bn = Item blk ->
             exists blk',
               own (set_children o bn (add_to_block e' m' (children blk))) bn
               = Some blk' /\
               has_names e' m' (children blk') = true).
  { intros blk e' m' G. apply get_Item in G.
    eexists. split.
    - rewrite (own_set_children _ _ _ _ _ G), String.eqb_refl. reflexivity.
    - simpl. apply has_names_added. }
  destruct (get o bn) as [|blk|] eqn:G; simpl;
    destruct (or_null e) as [en|], (or_null m) as [mn|];
    intros H; inv H;
    first [ exact (Hblk _ (Some en) (Some mn) eq_refl)
          | exact (Hblk _ (Some en) None eq_refl)
          | exact (Hblk _ None (Some mn) eq_refl)
          | idtac ].
  - unfold get. rewrite own_set, String.eqb_refl. discriminate.
  - congruence.
  - congruence.
Qed.

Lemma covered_kept (o o' : ISASSObject) (className className' : string) :
  covered o className ->
  extractSCSS_body o className' = Normal o' ->
  covered o' className.
Proof.
  intros Hc Hb. apply extractSCSS_body_cases in Hb.
  destruct Hb as [-> | [(b' & Hnone & ->) | (b' & blk' & e' & m' & Hown & ->)]];
    [assumption | |]; revert Hc; unfold covered;
    destruct (splitClassNameByBEMRule className) as [[b e] m];
    destruct (or_null b) as [bn|]; trivial.
  - assert (Hown' : forall blk, own o bn = Some blk ->
              own (set o b' (mkItem b' [])) bn = Some blk).
    { intros blk Hbn. rewrite own_set.
      destruct (String.eqb b' bn) eqn:E; [|assumption].
      apply String.eqb_eq in E. congruence. }
    destruct (or_null e) as [en|], (or_null m) as [mn|].
    1-3: intros (blk & Hbn & Hhas); exists blk; split; auto.
    unfold get. rewrite own_set.
    destruct (String.eqb b' bn); [discriminate | trivial].
  - assert (Hown' : forall e0 m0,
              (exists blk, own o bn = Some blk /\
                           has_names e0 m0 (children blk) = true) ->
              exists blk,
                own (set_children o b' (add_to_block e' m' (children blk'))) bn
                = Some blk /\ has_names e0 m0 (children blk) = true).
    { intros e0 m0 (blk & Hbn & Hhas).
      rewrite (own_set_children _ _ _ _ _ Hown).
      destruct (String.eqb b' bn) eqn:E.
      - apply String.eqb_eq in E. subst b'.
        assert (blk' = blk) by congruence. subst blk'.
        eexists. split; [reflexivity|]. simpl. now apply has_names_kept.
      - exists blk. now split. }
    destruct (or_null e) as [en|], (or_null m) as [mn|]; auto.
    unfold get. rewrite (own_set_children _ _ _ _ _ Hown).
    destruct (String.eqb b' bn); [discriminate | trivial].
Qed.

Lemma extractSCSS_loop_app (l1 l2 : list string) :
  forall o,
    extractSCSS_loop o (l1 ++ l2) =
    (o' <- extractSCSS_loop o l1 ;; extractSCSS_loop o' l2).
Proof.
  induction l1 as [|c l1 IH]; simpl; intros o; [reflexivity|].
  destruct (extractSCSS_body o c) as [o1|]; simpl; [apply IH | reflexivity].
Qed.

Lemma extractSCSS_loop_kept (l : list string) (className : string) :
  forall o o',
    covered o className ->
    extractSCSS_loop o l = Normal o' -> covered o' className.
Proof.
  induction l as [|c l IH]; simpl; intros o o' Hc H.
  - now inv H.
  - destruct (extractSCSS_body o c) as [o1|] eqn:E; simpl in H; [|discriminate].
    eapply IH; [|exact H]. eapply covered_kept; eassumption.
Qed.

Lemma extractSCSS_loop_covers (l : list string) :
  forall o o', extractSCSS_loop o l = Normal o' -> Forall (covered o') l.
Proof.
  induction l as [|c l IH]; simpl; intros o o' H; [constructor|].
  destruct (extractSCSS_body o c) as [o1|] eqn:E; simpl in H; [|discriminate].
  constructor.
  - eapply extractSCSS_loop_kept; [|exact H].
    eapply extractSCSS_body_covers; eassumption.
  - eapply IH; eassumption.
Qed.

Lemma extractSCSS_loop_fixed (l : list string) (o : ISASSObject) :
  Forall (covered o) l -> extractSCSS_loop o l = Normal o.
Proof.
  induction 1 as [|c l Hc _ IH]; simpl; [reflexivity|].
  now rewrite (covered_fixed _ _ Hc).
Qed.

Lemma extractSCSS_loop_twice (s : list string) :
  extractSCSS_loop [] (s ++ s) = extractSCSS_loop [] s.
Proof.
  rewrite extractSCSS_loop_app.
  destruct (extractSCSS_loop [] s) as [o|] eqn:E; simpl; [|reflexivity].
  apply extractSCSS_loop_fixed. eapply extractSCSS_loop_covers; eassumption.
Qed.

(** ** The sorting pass *)

Section Sorting.

Variable localeCompare : string -> string -> Z.

(** A consistent comparator, which is what [sort] asks of its argument:
    any two names compare one way or the other, and transitively. *)
Hypothesis localeCompare_total :
  forall a b, (0 < localeCompare a b)%Z -> (localeCompare b a <= 0)%Z.
Hypothesis localeCompare_trans :
  forall a b c,
    (localeCompare a b <= 0)%Z -> (localeCompare b c <= 0)%Z ->
    (localeCompare a c <= 0)%Z.

Let cmp := compareFn localeCompare.
Let cmp_le (a b : SASSObjectItem) : Prop := (cmp a b <= 0)%Z.

Lemma compareFn_total (a b : SASSObjectItem) : ~ cmp_le a b -> cmp_le b a.
Proof.
  unfold cmp_le, cmp, compareFn.
  destruct (String.prefix "--" (parent a)), (String.prefix "--" (parent b));
    simpl; intros H; try lia; apply localeCompare_total; lia.
Qed.

Lemma compareFn_trans (a b c : SASSObjectItem) :
  cmp_le a b -> cmp_le b c -> cmp_le a c.
Proof.
  unfold cmp_le, cmp, compareFn.
  destruct (String.prefix "--" (parent a)), (String.prefix "--" (parent b)),
    (String.prefix "--" (parent c)); simpl; try lia;
    apply localeCompare_trans.
Qed.

Lemma insert_by_sorted (x : SASSObjectItem) (l : list SASSObjectItem) :
  StronglySorted cmp_le l -> StronglySorted cmp_le (insert_by cmp x l).
Proof.
  induction 1 as [|y l Hs IH Hy]; simpl.
  - repeat constructor.
  - destruct (cmp x y <=? 0)%Z eqn:E.
    + apply Z.leb_le in E. constructor; [now constructor|].
      constructor; [exact E|].
      eapply Forall_impl; [|exact Hy]. intros z Hz.
      eapply compareFn_trans; eassumption.
    + apply Z.leb_gt in E. constructor; [exact IH|].
      eapply Permutation_Forall; [symmetry; apply insert_by_perm|].
      constructor; [|exact Hy]. apply compareFn_total. unfold cmp_le. lia.
Qed.

Lemma sort_by_sorted (l : list SASSObjectItem) :
  StronglySorted cmp_le (sort_by cmp l).
Proof.
  induction l as [|x l IH]; simpl; [constructor | now apply insert_by_sorted].
Qed.

Lemma element_named_not_modifier (n : SASSObjectItem) :
  is_element_named n = true -> is_modifier_named n = false.
Proof.
  unfold is_element_named, is_modifier_named. intros He.
  destruct (String.prefix "--" (parent n)) eqn:Hm; [|reflexivity].
  apply prefix_head in He, Hm.
  destruct He as (s1 & He & _), Hm as (s2 & Hm & _). congruence.
Qed.

Lemma sorted_modifiers_then_elements (l : list SASSObjectItem) :
  Forall (fun n => is_element_named n = true \/ is_modifier_named n = true) l ->
  StronglySorted cmp_le l ->
  modifiers_then_elements localeCompare l.
Proof.
  intros Hnamed Hs. induction Hs as [|x l Hs IH Hx].
  - exists [], []. repeat split; constructor.
  - inv Hnamed. destruct (IH H2) as (ms & es & -> & Hms & Hes & Sms & Ses).
    apply Forall_app in Hx. destruct Hx as [Hxm Hxe].
    destruct (is_modifier_named x) eqn:Ex.
    + exists (x :: ms), es. repeat split; auto.
      constructor; [assumption|].
      rewrite Forall_forall in *. intros y Hy.
      specialize (Hxm y Hy). specialize (Hms y Hy).
      unfold cmp_le, cmp, compareFn, is_modifier_named in *.
      rewrite Ex, Hms in Hxm. exact Hxm.
    + assert (Hxel : is_element_named x = true) by (destruct H1; congruence).
      assert (ms = []).
      { destruct ms as [|y ms]; [reflexivity|]. exfalso.
        inv Hxm. inv Hms.
        unfold cmp_le, cmp, compareFn, is_modifier_named in *.
        rewrite Ex in *. match goal with H : String.prefix _ (parent y) = true |- _ => rewrite H in * end.
        simpl in *. lia. }
      subst ms. exists [], (x :: es). simpl in *. repeat split; auto.
      constructor; [assumption|].
      rewrite Forall_forall in *. intros y Hy.
      specialize (Hxe y Hy). specialize (Hes y Hy).
      apply element_named_not_modifier in Hes.
      unfold cmp_le, cmp, compareFn, is_modifier_named in *.
      rewrite Ex, Hes in Hxe. exact Hxe.
Qed.

Lemma block_children_named (ch : list SASSObjectItem) :
  block_children_ok ch ->
  Forall (fun n => is_element_named n = true \/ is_modifier_named n = true) ch.
Proof.
  intros [_ H]. eapply Forall_impl; [|exact H].
  intros c [(He & _)|(Hm & _)].
  - left. unfold element_name in He. now apply andb_true_iff in He.
  - right. unfold modifier_name in Hm. now apply andb_true_iff in Hm.
Qed.

Lemma sort_blocks_sorted (o : ISASSObject) :
  forest_ok o ->
  Forall (fun kn => modifiers_then_elements localeCompare (children (snd kn)))
         (sort_blocks localeCompare o).
Proof.
  intros Hok. unfold sort_blocks. apply Forall_map.
  eapply Forall_impl; [|exact Hok]. intros [k n] (_ & _ & Hch). simpl.
  apply sorted_modifiers_then_elements.
  - apply block_children_named.
    eapply block_children_ok_perm; [|exact Hch]. symmetry. apply sort_by_perm.
  - apply sort_by_sorted.
Qed.

End Sorting.

Lemma sort_blocks_same localeCompare (o : ISASSObject) :
  same_up_to_child_order o (sort_blocks localeCompare o).
Proof.
  unfold same_up_to_child_order, sort_blocks.
  induction o as [|[k n] o IH]; simpl; constructor; [|exact IH].
  simpl. repeat split. symmetry. apply sort_by_perm.
Qed.

(** The order of the character codes is a consistent comparator. *)
Lemma compare_not_Gt_trans (a : string) :
  forall b c,
    String.compare a b <> Gt -> String.compare b c <> Gt ->
    String.compare a c <> Gt.
Proof.
  induction a as [|x a IH]; intros [|y b] [|z c]; simpl; try congruence.
  unfold Ascii.compare.
  destruct (N.compare_spec (N_of_ascii x) (N_of_ascii y)),
    (N.compare_spec (N_of_ascii y) (N_of_ascii z)),
    (N.compare_spec (N_of_ascii x) (N_of_ascii z));
    intros Hab Hbc;
    first [ congruence | discriminate | exfalso; lia | now apply (IH b c) ].
Qed.

Lemma codeunit_compare_le (a b : string) :
  (codeunit_compare a b <= 0)%Z <-> String.compare a b <> Gt.
Proof.
  unfold codeunit_compare. destruct (String.compare a b); split;
    intros H; try lia; try discriminate; congruence.
Qed.

Lemma codeunit_compare_total (a b : string) :
  (0 < codeunit_compare a b)%Z -> (codeunit_compare b a <= 0)%Z.
Proof.
  unfold codeunit_compare. rewrite (String.compare_antisym b a).
  destruct (String.compare a b); simpl; lia.
Qed.

Lemma codeunit_compare_trans (a b c : string) :
  (codeunit_compare a b <= 0)%Z -> (codeunit_compare b c <= 0)%Z ->
  (codeunit_compare a c <= 0)%Z.
Proof.
  rewrite !codeunit_compare_le. apply compare_not_Gt_trans.
Qed.

(** ** The serializer closes every brace it opens *)

Lemma SASSObjectItem_induction (P : SASSObjectItem -> Prop) :
  (forall name kids, Forall P kids -> P (mkItem name kids)) ->
  forall n, P n.
Proof.
  intros H.
  refine (fix IH (n : SASSObjectItem) : P n :=
            match n with
            | mkItem name kids =>
                H name kids
                  ((fix each (l : list SASSObjectItem) : Forall P l :=
                      match l with
                      | [] => Forall_nil P
                      | c :: l' => Forall_cons c (IH c) (each l')
                      end) kids)
            end).
Qed.

Lemma brace_scan_app (a b : string) :
  forall d,
    brace_scan (a ++ b) d =
    match brace_scan a d with
    | Some d' => brace_scan b d'
    | None => None
    end.
Proof.
  induction a as [|c a IH]; simpl; intros d; [reflexivity|].
  destruct (Ascii.eqb c "{"); [apply IH|].
  destruct (Ascii.eqb c "}"); [|apply IH].
  destruct d; [reflexivity | apply IH].
Qed.

Lemma brace_scan_free (s : string) :
  brace_free s = true -> forall d, brace_scan s d = Some d.
Proof.
  unfold brace_free, is_brace.
  induction s as [|c s IH]; simpl; intros H d; [reflexivity|].
  apply andb_true_iff in H. destruct H as [Hc Hs].
  destruct (Ascii.eqb c "{"); [discriminate|].
  destruct (Ascii.eqb c "}"); [discriminate|]. now apply IH.
Qed.

Lemma brace_scan_skip (a b : string) (d : nat) :
  brace_free a = true -> brace_scan (a ++ b) d = brace_scan b d.
Proof. intros H. now rewrite brace_scan_app, brace_scan_free. Qed.

Lemma brace_scan_count (s : string) :
  forall d d',
    brace_scan s d = Some d' ->
    count_char "{" s + d = count_char "}" s + d'.
Proof.
  induction s as [|c s IH]; simpl; intros d d' H.
  - inv H. reflexivity.
  - destruct (Ascii.eqb c "{") eqn:E1.
    + apply Ascii.eqb_eq in E1. subst c. simpl.
      apply IH in H. lia.
    + destruct (Ascii.eqb c "}") eqn:E2.
      * destruct d as [|d]; [discriminate|]. apply IH in H. lia.
      * apply IH in H. lia.
Qed.

Lemma balanced_count (s : string) :
  balanced s -> count_char "{" s = count_char "}" s.
Proof. intros H. apply brace_scan_count in H. lia. Qed.

Lemma brace_free_app (a b : string) :
  brace_free (a ++ b) = brace_free a && brace_free b.
Proof. apply string_forall_app. Qed.

Lemma brace_free_indent (n : nat) : brace_free (repeat_string (str1 tab) n) = true.
Proof. induction n as [|n IH]; [reflexivity | exact IH]. Qed.

(** The body of [parseToSCSS], with the loop over the children as a fold. *)
Lemma parseToSCSS_unfold (name : string) (kids : list SASSObjectItem)
  (parentSelector : string) (indentLevel : nat) :
  let currentSelector :=
    (if negb (truthy (Some parentSelector)) then "." ++ name
     else "&" ++ name)%string in
  let indent := repeat_string (str1 tab) indentLevel in
  parseToSCSS (mkItem name kids) parentSelector indentLevel =
  (indent ++ currentSelector ++ " {" ++ str1 newline
   ++ indent ++ "  " ++ str1 newline
   ++ fold_right (fun child rest =>
                    parseToSCSS child currentSelector (indentLevel + 1) ++ rest)
                 EmptyString kids
   ++ indent ++ "}" ++ str1 newline
   ++ (if (indentLevel =? 0)%nat then str1 newline else EmptyString))%string.
Proof. reflexivity. Qed.

Lemma parseToSCSS_scan (n : SASSObjectItem) :
  all_names brace_free n = true ->
  forall parentSelector indentLevel d,
    brace_scan (parseToSCSS n parentSelector indentLevel) d = Some d.
Proof.
  induction n as [name kids IH] using SASSObjectItem_induction.
  rewrite all_names_unfold. intros H sel lvl d. cbn [parent children] in H.
  apply andb_true_iff in H. destruct H as [Hname Hkids].
  rewrite parseToSCSS_unfold. cbv zeta.
  set (cur := (if negb (truthy (Some sel)) then "." ++ name else "&" ++ name)%string).
  assert (Hcur : brace_free cur = true).
  { unfold cur. destruct (negb (truthy (Some sel))); exact Hname. }
  assert (Hk : forall d',
             brace_scan (fold_right (fun child rest =>
                           (parseToSCSS child cur (lvl + 1) ++ rest)%string)
                         EmptyString kids) d' = Some d').
  { clear Hcur. induction IH as [|c l Hc _ IHl]; intros d'; [reflexivity|].
    simpl in Hkids. apply andb_true_iff in Hkids. destruct Hkids as [Hc' Hl].
    simpl. rewrite brace_scan_app, Hc by assumption. now apply IHl. }
  rewrite brace_scan_skip by apply brace_free_indent.
  rewrite brace_scan_skip by exact Hcur.
  change (" {" ++ ?x)%string with (String " " (String "{" x)).
  cbn [brace_scan]. change (Ascii.eqb " " "{") with false.
  change (Ascii.eqb " " "}") with false.
  change (Ascii.eqb "{" "{") with true. cbv iota.
  rewrite (brace_scan_skip (str1 newline)) by reflexivity.
  rewrite brace_scan_skip by apply brace_free_indent.
  rewrite (brace_scan_skip "  ") by reflexivity.
  rewrite (brace_scan_skip (str1 newline)) by reflexivity.
  rewrite brace_scan_app, Hk.
  rewrite brace_scan_skip by apply brace_free_indent.
  change ("}" ++ ?x)%string with (String "}" x).
  cbn [brace_scan]. change (Ascii.eqb "}" "{") with false.
  change (Ascii.eqb "}" "}") with true. cbv iota.
  apply brace_scan_free. rewrite brace_free_app.
  destruct (lvl =? 0)%nat; reflexivity.
Qed.

Lemma In_insert_index {A : Type} (i j : N) (x y : A) (l : list (N * A)) :
  In (j, y) (insert_index i x l) -> (j, y) = (i, x) \/ In (j, y) l.
Proof.
  induction l as [|[k z] l IH]; simpl.
  - intros [H|[]]; auto.
  - destruct (i <=? k)%N; simpl.
    + intros [H|[H|H]]; auto.
    + intros [H|H]; auto. apply IH in H. destruct H; auto.
Qed.

Lemma In_index_entries (o : ISASSObject) (i : N) (n : SASSObjectItem) :
  In (i, n) (index_entries o) -> In n (map snd o).
Proof.
  induction o as [|[k m] o IH]; simpl; [tauto|].
  destruct (array_index k).
  - intros H. apply In_insert_index in H. destruct H as [H|H].
    + inv H. now left.
    + right. now apply IH.
  - intros H. right. now apply IH.
Qed.

Lemma In_string_entries (o : ISASSObject) (n : SASSObjectItem) :
  In n (string_entries o) -> In n (map snd o).
Proof.
  induction o as [|[k m] o IH]; simpl; [tauto|].
  destruct (array_index k); simpl; intros H; [right; auto|].
  destruct H; [now left | right; auto].
Qed.

(** [Object.values] lists nodes of the object, whatever the order. *)
Lemma In_Object_values (o : ISASSObject) (n : SASSObjectItem) :
  In n (Object_values o) -> In n (map snd o).
Proof.
  unfold Object_values. rewrite in_app_iff, in_map_iff.
  intros [([i m] & <- & H)|H].
  - now apply In_index_entries in H.
  - now apply In_string_entries.
Qed.

Lemma SelectorForest_values (f : ISASSObject) :
  SelectorForest f ->
  Forall (fun n => all_names brace_free n = true) (Object_values f).
Proof.
  intros H. apply Forall_forall. intros n Hn.
  apply In_Object_values, in_map_iff in Hn. destruct Hn as ([k m] & <- & Hin).
  unfold SelectorForest in H. rewrite Forall_forall in H. now apply (H (k, m)).
Qed.

Lemma generateSCSS_scan (l : list SASSObjectItem) :
  Forall (fun n => all_names brace_free n = true) l ->
  forall acc d,
    brace_scan acc d = Some d ->
    brace_scan
      (fold_left (fun result block =>
                    (result ++ parseToSCSS block EmptyString 0)%string) l acc) d
    = Some d.
Proof.
  induction 1 as [|n l Hn _ IH]; simpl; intros acc d Hacc; [exact Hacc|].
  apply IH. rewrite brace_scan_app, Hacc. now apply parseToSCSS_scan.
Qed.

Lemma forest_ok_SelectorForest (f : ISASSObject) :
  forest_ok f -> SelectorForest f.
Proof.
  intros H. eapply Forall_impl; [|exact H]. intros [k n] Hn. simpl in *.
  now apply block_node_facts in Hn.
Qed.

(** ** [matchAll] has fuel to spare *)

Lemma length_append (a b : string) :
  String.length (a ++ b) = String.length a + String.length b.
Proof. induction a as [|c a IH]; simpl; [reflexivity | now rewrite IH]. Qed.

Lemma matchAll_from_fuel (r : regex) (fuel : nat) :
  forall fuel' pos s,
    String.length s < fuel -> String.length s < fuel' ->
    matchAll_from fuel r pos s = matchAll_from fuel' r pos s.
Proof.
  induction fuel as [|fuel IH]; intros [|fuel'] pos s Hf Hf'; try lia.
  simpl. destruct (search r pos s) as [m|] eqn:E; [|reflexivity].
  apply search_sound in E. destruct E as (_ & sk & Hs & _).
  assert (Hlen : String.length s =
                 String.length sk + String.length (m_0 m)
                 + String.length (m_after m))
    by (rewrite Hs at 1; rewrite !length_append; lia).
  f_equal. destruct (m_0 m) as [|c w]; simpl in Hlen.
  - destruct (m_after m) as [|c' s']; [reflexivity|]. simpl in Hlen.
    apply IH; lia.
  - apply IH; lia.
Qed.

Lemma matchAll_enough_fuel (r : regex) (s : string) (extra : nat) :
  matchAll_from (S (String.length s) + extra) r 0 s = matchAll r s.
Proof. apply matchAll_from_fuel; lia. Qed.

(** ** The object never holds a key twice *)


Lemma keys_set_new (o : ISASSObject) (key : string) (n : SASSObjectItem) :
  own o key = None -> map fst (set o key n) = map fst o ++ [key].
Proof.
  induction o as [|[k m] o IH]; simpl; [reflexivity|].
  destruct (String.eqb k key); [discriminate|]. intros H. simpl. now rewrite IH.
Qed.

Lemma keys_set_children (o : ISASSObject) (key : string) ch :
  map fst (set_children o key ch) = map fst o.
Proof.
  induction o as [|[k m] o IH]; simpl; [reflexivity|].
  destruct (String.eqb k key); simpl; [reflexivity | now rewrite IH].
Qed.


Lemma keys_sort_blocks localeCompare (o : ISASSObject) :
  map fst (sort_blocks localeCompare o) = map fst o.
Proof. unfold sort_blocks. rewrite map_map. reflexivity. Qed.

Lemma block_node_three_levels (key : string) (n : SASSObjectItem) :
  block_node key n -> three_levels n.
Proof.
  intros Hn. split; [now apply block_node_facts in Hn|].
  destruct Hn as (_ & _ & _ & Hall).
  eapply Forall_impl; [|exact Hall].
  intros c [(He & _ & Hmods)|(Hm & Hc)].
  - split.
    + intros Hmod. exfalso.
      unfold element_name in He. apply andb_true_iff in He.
      destruct He as [He _].
      apply (element_named_not_modifier c) in He. congruence.
    + eapply Forall_impl; [|exact Hmods]. now intros g [_ Hg].
  - split; [auto|]. rewrite Hc. constructor.
Qed.

Lemma extractSCSS_body_skip (o : ISASSObject) (t : string) :
  str_match BLOCK_REGEX t = None -> extractSCSS_body o t = Normal o.
Proof.
  intros H. unfold extractSCSS_body, splitClassNameByBEMRule. now rewrite H.
Qed.

Lemma extractSCSS_loop_skip (t : string) (before after : list string) :
  str_match BLOCK_REGEX t = None ->
  extractSCSS_loop [] (before ++ t :: after) =
  extractSCSS_loop [] (before ++ after).
Proof.
  intros H. rewrite !extractSCSS_loop_app.
  destruct (extractSCSS_loop [] before) as [o|]; simpl; [|reflexivity].
  now rewrite extractSCSS_body_skip.
Qed.

(** ** A new block with an element or a modifier *)

(** Whatever the object holds, a class name whose block is not an own
    property yet and which has an element or a modifier makes the loop body
    of the canonical variant throw. *)
Lemma extractSCSS_body_new_block_throws (o : ISASSObject) (t b : string) :
  or_null (fst (fst (splitClassNameByBEMRule t))) = Some b ->
  own o b = None ->
  or_null (snd (fst (splitClassNameByBEMRule t))) <> None \/
  or_null (snd (splitClassNameByBEMRule t)) <> None ->
  extractSCSS_body o t = Throw TypeError.
Proof.
  unfold extractSCSS_body.
  destruct (splitClassNameByBEMRule t) as [[blk e] m]. simpl.
  intros -> Hown Hem. unfold get. rewrite Hown.
  destruct (existsb (String.eqb b) Object_prototype_keys); simpl;
    destruct (or_null e), (or_null m); try reflexivity;
    destruct Hem as [H|H]; now elim H.
Qed.

(* ================================================================== *)
(** * The claims *)

(** C1 (the code departs from it).  The canonical [extractSCSS] is not
    total: a class name with an element or a modifier whose block has not
    been seen yet makes it read [children] of [undefined], and it throws.
    The earlier variant reads the block again after creating it and
    returns a forest on the same input.  The class names of the sample
    [App.jsx] of the repository are such an input. *)
Theorem extractSCSS_throws_on_new_block :
  (forall localeCompare,
      extractSCSS localeCompare ["block__el"] = Throw TypeError) /\
  (forall localeCompare,
      extractSCSS localeCompare ["block--mod"] = Throw TypeError) /\
  extractSCSS_legacy ["block__el"]
  = Normal [("block", mkItem "block" [leaf "__el"])] /\
  getAllClassName App_jsx_classes
  = ["app"; "app__header"; "app__header--mobile"; "app__heading--h1";
     "view-card"; "view-cart__image"; "view-cart__body";
     "view-cart__title"; "view-cart__sub-title"] /\
  (forall localeCompare,
      extractSCSS localeCompare (getAllClassName App_jsx_classes)
      = Throw TypeError).
Proof.
  repeat split; intros; vm_compute; reflexivity.
Qed.

(** C2.  The tokenizer on the four shapes of a BEM class name: the element
    is returned with its two underscores, the modifier with its two
    hyphens, and that on every class name. *)
Theorem splitClassNameByBEMRule_examples :
  splitClassNameByBEMRule "block" = (Some "block", None, None) /\
  splitClassNameByBEMRule "block__el" = (Some "block", Some "__el", None) /\
  splitClassNameByBEMRule "block--mod" = (Some "block", None, Some "--mod") /\
  splitClassNameByBEMRule "block__el--mod"
  = (Some "block", Some "__el", Some "--mod") /\
  (forall classString s,
      snd (fst (splitClassNameByBEMRule classString)) = Some s ->
      String.prefix "__" s = true) /\
  (forall classString s,
      snd (splitClassNameByBEMRule classString) = Some s ->
      String.prefix "--" s = true).
Proof.
  do 4 (split; [vm_compute; reflexivity|]).
  split; intros c s H;
    destruct (splitClassNameByBEMRule c) as [[b e] m] eqn:E;
    apply splitClassNameByBEMRule_names in E; destruct E as (_ & He & Hm);
    simpl in H.
  - apply He in H. unfold element_name in H. now apply andb_true_iff in H.
  - apply Hm in H. unfold modifier_name in H. now apply andb_true_iff in H.
Qed.

Lemma splitClassNameByBEMRule_examples_witness :
  snd (fst (splitClassNameByBEMRule "block__el--mod")) = Some "__el" /\
  String.prefix "__" "__el" = true /\
  snd (splitClassNameByBEMRule "block__el--mod") = Some "--mod" /\
  String.prefix "--" "--mod" = true.
Proof.
  assert (He : snd (fst (splitClassNameByBEMRule "block__el--mod"))
               = Some "__el") by (vm_compute; reflexivity).
  assert (Hm : snd (splitClassNameByBEMRule "block__el--mod") = Some "--mod")
    by (vm_compute; reflexivity).
  split; [exact He|]. split.
  - exact (proj1 (proj2 (proj2 (proj2 (proj2
             splitClassNameByBEMRule_examples)))) _ _ He).
  - split; [exact Hm|].
    exact (proj2 (proj2 (proj2 (proj2 (proj2
             splitClassNameByBEMRule_examples)))) _ _ Hm).
Defined.

(** C3 (the code departs from it).  [getAllClassName] cuts every value
    with [split] at the single space only, so it does not return the
    individual class names its own comment promises: with two spaces
    between two names it returns an empty string between them, and two
    names separated by a line break stay one token, of which the builder
    keeps the first name as a block and loses the second.  On values whose
    names are separated by single spaces, in either kind of quotes, it does
    return the names, other attributes left aside. *)
Theorem getAllClassName_not_individual_names :
  getAllClassName double_space_markup = ["x"; EmptyString; "y"] /\
  flat_map whitespace_words (class_attribute_values double_space_markup)
  = ["x"; "y"] /\
  getAllClassName line_break_markup
  = [("card" ++ str1 newline ++ "btn")%string] /\
  flat_map whitespace_words (class_attribute_values line_break_markup)
  = ["card"; "btn"] /\
  (forall localeCompare,
      extractSCSS localeCompare (getAllClassName line_break_markup)
      = Normal [("card", leaf "card")]) /\
  class_attribute_values two_quotes_markup = ["a b"; "c"] /\
  getAllClassName two_quotes_markup = ["a"; "b"; "c"].
Proof. repeat split; intros; vm_compute; reflexivity. Qed.

(** C4.  With a consistent [localeCompare], in every forest the canonical
    [extractSCSS] returns the children of each block are the modifier-named
    ones, in the order of [localeCompare], followed by the element-named
    ones, in that order too; the pass only permutes the children of the
    blocks, so every child keeps its own children as the loop pushed them.
    A block given [--large] and [__title], in either order, has [--large]
    first, in the forest and in the text; two modifiers pushed under an
    element as [--z], [--a] stay in that order. *)
Theorem extractSCSS_children_order
  (localeCompare : string -> string -> Z)
  (Htotal : forall a b,
      (0 < localeCompare a b)%Z -> (localeCompare b a <= 0)%Z)
  (Htrans : forall a b c,
      (localeCompare a b <= 0)%Z -> (localeCompare b c <= 0)%Z ->
      (localeCompare a c <= 0)%Z) :
  (forall classNames f,
      extractSCSS localeCompare classNames = Normal f ->
      Forall (fun kn =>
                modifiers_then_elements localeCompare (children (snd kn))) f /\
      exists o,
        extractSCSS_loop [] classNames = Normal o /\
        same_up_to_child_order o f) /\
  extractSCSS localeCompare ["card"; "card--large"; "card__title"]
  = Normal [("card", mkItem "card" [leaf "--large"; leaf "__title"])] /\
  extractSCSS localeCompare ["card"; "card__title"; "card--large"]
  = Normal [("card", mkItem "card" [leaf "--large"; leaf "__title"])] /\
  (let text :=
     generateSCSS [("card", mkItem "card" [leaf "--large"; leaf "__title"])] in
   String.index 0 "&--large" text = Some 12 /\
   String.index 0 "&__title" text = Some 31) /\
  extractSCSS localeCompare ["b"; "b__e--z"; "b__e--a"]
  = Normal [("b", mkItem "b" [mkItem "__e" [leaf "--z"; leaf "--a"]])].
Proof.
  split; [|repeat split; vm_compute; reflexivity].
  intros classNames f H. unfold extractSCSS in H.
  destruct (extractSCSS_loop [] classNames) as [o|] eqn:E; simpl in H;
    [|discriminate].
  inv H. split.
  - apply sort_blocks_sorted; [assumption | assumption |].
    eapply extractSCSS_loop_ok; [|exact E]. constructor.
  - exists o. split; [reflexivity | apply sort_blocks_same].
Qed.

Lemma extractSCSS_children_order_witness :
  Forall (fun kn =>
            modifiers_then_elements codeunit_compare (children (snd kn)))
         [("card", mkItem "card" [leaf "--big"; leaf "--large";
                                  leaf "__body"; leaf "__title"])].
Proof.
  refine (proj1 (proj1 (extractSCSS_children_order codeunit_compare
                          codeunit_compare_total codeunit_compare_trans)
                   ["card"; "card__title"; "card--large"; "card--big";
                    "card__body"] _ _)).
  vm_compute. reflexivity.
Defined.

(** C5.  Running the builder on a sequence of class names written twice
    gives what it gives on the sequence written once: the same forest, or
    the same error where it throws. *)
Theorem extractSCSS_twice (localeCompare : string -> string -> Z)
  (s : list string) :
  extractSCSS localeCompare (s ++ s) = extractSCSS localeCompare s.
Proof. unfold extractSCSS. now rewrite extractSCSS_loop_twice. Qed.



(** C7, as stated, fails: on [a--b__c] the modifier pattern, anchored at the
    end of the token, finds nothing. *)
Lemma splitClassNameByBEMRule_modifier_before_element :
  splitClassNameByBEMRule "a--b__c" = (Some "a", Some "__c", None).
Proof. vm_compute. reflexivity. Qed.

(** C7, amended.  On [a--b__c] the element pattern, searched anywhere,
    finds [__c]; the modifier pattern matches only at the end of the token
    and gives nothing, so the modifier that comes before the element is
    dropped.  With a modifier at the end as well, [a--b__c--d], the last
    modifier is the one returned. *)
Theorem splitClassNameByBEMRule_out_of_order :
  fst (fst (splitClassNameByBEMRule "a--b__c")) = Some "a" /\
  snd (fst (splitClassNameByBEMRule "a--b__c")) = Some "__c" /\
  snd (splitClassNameByBEMRule "a--b__c") = None /\
  str_match MODIFIER_REGEX "a--b__c" = None /\
  splitClassNameByBEMRule "a--b__c--d" = (Some "a", Some "__c", Some "--d").
Proof. repeat split; vm_compute; reflexivity. Qed.

(** C8.  A class name on which the block pattern finds nothing has its
    three components absent, and the builder passes over it: the loop body
    leaves the object as it is and returns normally, and the result of
    [extractSCSS] is the one for the input without that class name. *)
Theorem extractSCSS_skips_malformed (t : string)
  (Hblock : str_match BLOCK_REGEX t = None) :
  splitClassNameByBEMRule t = (None, None, None) /\
  (forall o, extractSCSS_body o t = Normal o) /\
  (forall localeCompare before after,
      extractSCSS localeCompare (before ++ t :: after)
      = extractSCSS localeCompare (before ++ after)).
Proof.
  repeat split.
  - unfold splitClassNameByBEMRule. now rewrite Hblock.
  - intros o. now apply extractSCSS_body_skip.
  - intros lc before after. unfold extractSCSS.
    now rewrite extractSCSS_loop_skip.
Qed.

Lemma extractSCSS_skips_malformed_witness :
  str_match BLOCK_REGEX "__title" = None /\
  splitClassNameByBEMRule "__title" = (None, None, None) /\
  extractSCSS codeunit_compare (["card"] ++ "__title" :: ["card--large"])
  = extractSCSS codeunit_compare (["card"] ++ ["card--large"]).
Proof.
  assert (H : str_match BLOCK_REGEX "__title" = None) by reflexivity.
  split; [exact H|]. split.
  - exact (proj1 (extractSCSS_skips_malformed "__title" H)).
  - exact (proj2 (proj2 (extractSCSS_skips_malformed "__title" H))
             codeunit_compare ["card"] ["card--large"]).
Defined.

(** C9.  For every selector forest (names hold no brace, as names cut out
    of class names do) the text of every block, and the whole text
    [generateSCSS] returns, has its braces properly nested and all closed,
    hence as many opening as closing ones.  Every forest [extractSCSS]
    returns is such a forest. *)
Theorem generateSCSS_braces_balanced :
  (forall f,
      SelectorForest f ->
      Forall (fun block =>
                balanced (parseToSCSS block EmptyString 0) /\
                count_char "{" (parseToSCSS block EmptyString 0)
                = count_char "}" (parseToSCSS block EmptyString 0))
             (Object_values f) /\
      balanced (generateSCSS f) /\
      count_char "{" (generateSCSS f) = count_char "}" (generateSCSS f)) /\
  (forall localeCompare classNames f,
      extractSCSS localeCompare classNames = Normal f -> SelectorForest f).
Proof.
  split.
  - intros f Hf. apply SelectorForest_values in Hf.
    assert (Hall : balanced (generateSCSS f)).
    { unfold balanced, generateSCSS. now apply generateSCSS_scan. }
    repeat split; [|exact Hall | now apply balanced_count].
    eapply Forall_impl; [|exact Hf]. intros n Hn.
    assert (Hb : balanced (parseToSCSS n EmptyString 0))
      by (unfold balanced; now apply parseToSCSS_scan).
    split; [exact Hb | now apply balanced_count].
  - intros lc classNames f H.
    apply forest_ok_SelectorForest. eapply extractSCSS_ok; exact H.
Qed.

Lemma generateSCSS_braces_balanced_witness :
  SelectorForest [("card", mkItem "card" [leaf "--large";
                                          mkItem "__title" [leaf "--big"]])] /\
  balanced (generateSCSS
              [("card", mkItem "card" [leaf "--large";
                                       mkItem "__title" [leaf "--big"]])]).
Proof.
  assert (H : SelectorForest
                [("card", mkItem "card" [leaf "--large";
                                         mkItem "__title" [leaf "--big"]])]).
  { refine (proj2 generateSCSS_braces_balanced codeunit_compare
              ["card"; "card__title--big"; "card--large"] _ _).
    vm_compute. reflexivity. }
  split; [exact H|].
  exact (proj1 (proj2 (proj1 generateSCSS_braces_balanced _ H))).
Defined.

(** C10.  Every block tree the builder holds, after any number of class
    names and after the sorting pass, has at most three levels: the
    grandchildren of a block have no children, and neither has a child of
    the block whose name starts with two hyphens, since the element lookup
    asks for a name that starts with two underscores. *)
Theorem extractSCSS_three_levels :
  (forall classNames o,
      extractSCSS_loop [] classNames = Normal o ->
      Forall (fun kn => three_levels (snd kn)) o) /\
  (forall localeCompare classNames f,
      extractSCSS localeCompare classNames = Normal f ->
      Forall (fun kn => three_levels (snd kn)) f).
Proof.
  assert (H3 : forall o, forest_ok o ->
                 Forall (fun kn => three_levels (snd kn)) o).
  { intros o Hok. eapply Forall_impl; [|exact Hok].
    intros [k n] Hn. simpl in *. eapply block_node_three_levels; exact Hn. }
  split.
  - intros classNames o H. apply H3.
    eapply extractSCSS_loop_ok; [|exact H]. constructor.
  - intros lc classNames f H. apply H3. eapply extractSCSS_ok; exact H.
Qed.

Lemma extractSCSS_three_levels_witness :
  Forall (fun kn => three_levels (snd kn))
         [("card", mkItem "card" [leaf "--large";
                                  mkItem "__title" [leaf "--big"]])].
Proof.
  refine (proj2 extractSCSS_three_levels codeunit_compare
            ["card"; "card__title--big"; "card--large"; "card__title--big"] _ _).
  vm_compute. reflexivity.
Defined.

(* ================================================================== *)
(** * Further properties *)

(** ** When the builders return *)

Lemma existsb_eqb_In (b : string) (l : list string) :
  existsb (String.eqb b) l = true <-> In b l.
Proof.
  rewrite existsb_exists. split.
  - intros (x & Hin & E). apply String.eqb_eq in E. now subst.
  - intros H. exists b. split; [assumption | apply String.eqb_refl].
Qed.

Lemma own_keys (o : ISASSObject) (b : string) :
  own o b <> None <-> In b (map fst o).
Proof.
  induction o as [|[k n] o IH]; simpl; [tauto|].
  destruct (String.eqb k b) eqn:E.
  - apply String.eqb_eq in E. split; [auto | discriminate].
  - apply String.eqb_neq in E. rewrite IH. tauto.
Qed.

(** One turn of the canonical loop, case by case. *)
Lemma extractSCSS_body_spec (o : ISASSObject) (t : string) :
  match block_of t with
  | None => extractSCSS_body o t = Normal o
  | Some b =>
      if has_child_part t then
        match own o b with
        | Some blk =>
            exists e m,
              extractSCSS_body o t
              = Normal (set_children o b (add_to_block e m (children blk)))
        | None => extractSCSS_body o t = Throw TypeError
        end
      else
        extractSCSS_body o t
        = Normal (match own o b with
                  | Some _ => o
                  | None =>
                      if is_prototype_key b then o else set o b (mkItem b [])
                  end)
  end.
Proof.
  unfold block_of, has_child_part, extractSCSS_body, get.
  destruct (splitClassNameByBEMRule t) as [[b e] m]. cbn [fst snd].
  destruct (or_null b) as [bn|]; [|reflexivity].
  change (existsb (String.eqb bn) Object_prototype_keys)
    with (is_prototype_key bn).
  destruct (or_null e) as [en|], (or_null m) as [mn|], (own o bn) as [blk|],
    (is_prototype_key bn); cbn [is_truthy];
    first [ reflexivity
          | now exists (Some en), (Some mn)
          | now exists (Some en), None
          | now exists None, (Some mn) ].
Qed.

(** The object once the block of a class name has been looked up and, if
    it was not there, created. *)
Lemma ensure_block_keys (o : ISASSObject) (b : string) :
  let o1 := match own o b with
            | Some _ => o
            | None => if is_prototype_key b then o else set o b (mkItem b [])
            end in
  map fst o1
  = (if is_prototype_key b || existsb (String.eqb b) (map fst o)
     then map fst o else map fst o ++ [b]) /\
  (own o1 b = None <-> is_prototype_key b = true /\ own o b = None).
Proof.
  cbv zeta.
  assert (Hseen : existsb (String.eqb b) (map fst o) = true <-> own o b <> None)
    by (rewrite existsb_eqb_In; symmetry; apply own_keys).
  destruct (own o b) as [blk|] eqn:Hown.
  - destruct Hseen as [_ ->]; [|discriminate]. rewrite orb_true_r, Hown.
    split; [reflexivity|]. split; [discriminate | intros [_ H]; discriminate].
  - destruct (is_prototype_key b).
    + rewrite Hown. split; [reflexivity | tauto].
    + simpl. rewrite own_set, String.eqb_refl.
      destruct (existsb (String.eqb b) (map fst o)) eqn:Ex.
      * destruct Hseen as [H _]. now elim (H eq_refl).
      * rewrite keys_set_new by assumption.
        split; [reflexivity|]. split; [discriminate | intros [H _]; discriminate].
Qed.

(** One turn of the loop of the earlier variant, case by case. *)
Lemma extractSCSS_legacy_body_spec (o : ISASSObject) (t : string) :
  match block_of t with
  | None => extractSCSS_legacy_body o t = Normal o
  | Some b =>
      exists o1,
        o1 = match own o b with
             | Some _ => o
             | None =>
                 if is_prototype_key b then o else set o b (mkItem b [])
             end /\
        if has_child_part t then
          match own o1 b with
          | Some blk =>
              exists ch,
                extractSCSS_legacy_body o t = Normal (set_children o1 b ch)
          | None => extractSCSS_legacy_body o t = Throw TypeError
          end
        else extractSCSS_legacy_body o t = Normal o1
  end.
Proof.
  unfold block_of, has_child_part, extractSCSS_legacy_body.
  destruct (splitClassNameByBEMRule t) as [[b e] m]. cbn [fst snd].
  destruct (or_null b) as [bn|]; [|reflexivity]. cbv zeta.
  eexists. split; [reflexivity|].
  assert (Hget : forall o', get o' bn =
                   match own o' bn with
                   | Some n => Item n
                   | None => if is_prototype_key bn then Inherited else Undefined
                   end) by reflexivity.
  rewrite !Hget.
  destruct (own o bn) as [blk|] eqn:Hown; cbn [is_truthy].
  - rewrite Hown.
    destruct (or_null e), (or_null m); first [reflexivity | eauto].
  - destruct (is_prototype_key bn) eqn:Hp; cbn [is_truthy].
    + rewrite Hown.
      destruct (or_null e), (or_null m); first [reflexivity | eauto].
    + rewrite own_set, String.eqb_refl.
      destruct (or_null e), (or_null m); first [reflexivity | eauto].
Qed.

Lemma keys_set (o : ISASSObject) (b : string) (n : SASSObjectItem) :
  forall b', In b' (map fst (set o b n)) <-> b' = b \/ In b' (map fst o).
Proof.
  intros b'. rewrite <- !own_keys, own_set.
  destruct (String.eqb b b') eqn:E.
  - apply String.eqb_eq in E. subst. split; [auto | discriminate].
  - apply String.eqb_neq in E. split; [auto|]. intros [->|H]; [congruence | exact H].
Qed.

Lemma extractSCSS_loop_declared (classNames : list string) :
  forall o seen,
    (forall b, In b (map fst o) <-> In b seen) ->
    (exists o', extractSCSS_loop o classNames = Normal o') <->
    declared_first seen classNames = true.
Proof.
  induction classNames as [|t rest IH]; intros o seen Hinv; simpl.
  - split; [reflexivity | eauto].
  - pose proof (extractSCSS_body_spec o t) as Hs.
    destruct (block_of t) as [b|].
    + destruct (has_child_part t).
      * destruct (own o b) as [blk|] eqn:Hown.
        -- destruct Hs as (e & m & ->). simpl.
           assert (Hb : existsb (String.eqb b) seen = true).
           { apply existsb_eqb_In, Hinv, own_keys. congruence. }
           rewrite Hb. simpl. apply IH.
           intros b'. rewrite keys_set_children. apply Hinv.
        -- rewrite Hs. simpl.
           assert (Hb : existsb (String.eqb b) seen = false).
           { destruct (existsb (String.eqb b) seen) eqn:E; [|reflexivity].
             apply existsb_eqb_In, Hinv, own_keys in E. congruence. }
           rewrite Hb. simpl. split; [intros [o' H]|]; discriminate.
      * rewrite Hs. simpl. apply IH. intros b'.
        destruct (own o b) as [blk|] eqn:Hown.
        -- destruct (is_prototype_key b); [apply Hinv|].
           simpl. rewrite <- Hinv. split; [auto|].
           intros [<-|H]; [|exact H]. apply own_keys. congruence.
        -- destruct (is_prototype_key b); [apply Hinv|].
           rewrite keys_set. simpl. rewrite Hinv.
           split; intros [H|H]; auto.
    + rewrite Hs. simpl. now apply IH.
Qed.

Lemma extractSCSS_legacy_loop_safe (classNames : list string) :
  forall o,
    (forall b, In b (map fst o) -> is_prototype_key b = false) ->
    (exists o', extractSCSS_legacy_loop o classNames = Normal o') <->
    no_prototype_parent classNames = true.
Proof.
  unfold no_prototype_parent.
  induction classNames as [|t rest IH]; intros o Hinv; simpl.
  - split; [reflexivity | eauto].
  - pose proof (extractSCSS_legacy_body_spec o t) as Hs.
    destruct (block_of t) as [b|]; [|rewrite Hs; simpl; now apply IH].
    destruct Hs as (o1 & Ho1 & Hs).
    destruct (ensure_block_keys o b) as [Hk Hnone]. cbv zeta in Hk, Hnone.
    rewrite <- Ho1 in Hk, Hnone.
    assert (Hinv1 : forall b',
               In b' (map fst o1) -> is_prototype_key b' = false).
    { intros b'. rewrite Hk.
      destruct (is_prototype_key b) eqn:Hp; simpl; [apply Hinv|].
      destruct (existsb (String.eqb b) (map fst o)); [apply Hinv|].
      rewrite in_app_iff. intros [H|[<-|[]]]; [now apply Hinv | exact Hp]. }
    destruct (has_child_part t); simpl.
    + destruct (own o1 b) as [blk|] eqn:Hown1.
      * destruct Hs as (ch & ->). simpl.
        assert (Hp : is_prototype_key b = false).
        { apply Hinv1, own_keys. congruence. }
        rewrite Hp. simpl. apply IH.
        intros b'. rewrite keys_set_children. apply Hinv1.
      * rewrite Hs. simpl.
        assert (Hp : is_prototype_key b = true) by (now apply Hnone).
        rewrite Hp. simpl. split; [intros [o' H]|]; discriminate.
    + rewrite Hs. simpl. now apply IH.
Qed.

(** ** The keys of the forest *)

Lemma extractSCSS_loop_block_keys (classNames : list string) :
  forall o o',
    extractSCSS_loop o classNames = Normal o' ->
    map fst o' = block_keys (map fst o) classNames.
Proof.
  induction classNames as [|t rest IH]; intros o o' H; simpl in *.
  - now inv H.
  - pose proof (extractSCSS_body_spec o t) as Hs.
    destruct (extractSCSS_body o t) as [o1|] eqn:E; simpl in H; [|discriminate].
    apply IH in H. rewrite H. clear H IH.
    destruct (block_of t) as [b|]; [|now inv Hs].
    assert (Hseen : existsb (String.eqb b) (map fst o) = true <->
                    own o b <> None)
      by (rewrite existsb_eqb_In; symmetry; apply own_keys).
    destruct (has_child_part t).
    + destruct (own o b) as [blk|] eqn:Hown; [|discriminate].
      destruct Hs as (e & m & Hs). inv Hs. rewrite keys_set_children.
      destruct Hseen as [_ ->]; [|discriminate]. now rewrite orb_true_r.
    + inv Hs. destruct (own o b) as [blk|] eqn:Hown.
      * destruct Hseen as [_ ->]; [|discriminate]. now rewrite orb_true_r.
      * destruct (is_prototype_key b); [reflexivity|]. simpl.
        destruct (existsb (String.eqb b) (map fst o)) eqn:Ex.
        -- destruct Hseen as [Hx _]. now elim (Hx eq_refl).
        -- now rewrite keys_set_new.
Qed.

Lemma extractSCSS_legacy_loop_block_keys (classNames : list string) :
  forall o o',
    extractSCSS_legacy_loop o classNames = Normal o' ->
    map fst o' = block_keys (map fst o) classNames.
Proof.
  induction classNames as [|t rest IH]; intros o o' H; simpl in *.
  - now inv H.
  - pose proof (extractSCSS_legacy_body_spec o t) as Hs.
    destruct (extractSCSS_legacy_body o t) as [o1'|] eqn:E; simpl in H;
      [|discriminate].
    apply IH in H. rewrite H. clear H IH.
    destruct (block_of t) as [b|]; [|now inv Hs].
    destruct Hs as (o1 & Ho1 & Hs).
    destruct (ensure_block_keys o b) as [Hk _]. cbv zeta in Hk.
    rewrite <- Ho1 in Hk.
    destruct (has_child_part t).
    + destruct (own o1 b) as [blk|] eqn:Hown1; [|discriminate].
      destruct Hs as (ch & Hs). inv Hs. rewrite keys_set_children, Hk.
      destruct (is_prototype_key b || existsb (String.eqb b) (map fst o));
        reflexivity.
    + inv Hs. rewrite Hk.
      destruct (is_prototype_key b || existsb (String.eqb b) (map fst o));
        reflexivity.
Qed.

(** ** Nothing the class names say is lost *)





(** ** The extras on the builders *)


(** X2.  The earlier [extractSCSS] returns a forest exactly when no class
    name with an element or a modifier has a block named like a member of
    [Object.prototype] ([constructor], [toString], ...); a block seen for
    the first time with its element or modifier is no obstacle there. *)
Theorem extractSCSS_legacy_returns_iff (classNames : list string) :
  ((exists f, extractSCSS_legacy classNames = Normal f) <->
   no_prototype_parent classNames = true) /\
  (extractSCSS_legacy classNames = Throw TypeError <->
   no_prototype_parent classNames = false).
Proof.
  assert (H : (exists o, extractSCSS_legacy_loop [] classNames = Normal o) <->
              no_prototype_parent classNames = true)
    by (apply extractSCSS_legacy_loop_safe; intros b []).
  unfold extractSCSS_legacy.
  destruct (extractSCSS_legacy_loop [] classNames) as [o|[]] eqn:E.
  - assert (Hd : no_prototype_parent classNames = true) by (apply H; eauto).
    rewrite Hd. split; split; eauto; discriminate.
  - destruct (no_prototype_parent classNames) eqn:Hd.
    + destruct H as [_ H]. destruct (H eq_refl) as [o Ho]. discriminate.
    + split; split; auto; try discriminate. intros [f Hf]. discriminate.
Qed.

Lemma insert_index_perm {A : Type} (i : N) (x : A) (l : list (N * A)) :
  Permutation (insert_index i x l) ((i, x) :: l).
Proof.
  induction l as [|[j y] l IH]; cbn [insert_index]; [reflexivity|].
  destruct (i <=? j)%N; [reflexivity|]. rewrite IH. apply perm_swap.
Qed.

Lemma parse_digits_digits (s : string) :
  forall acc n,
    parse_digits acc s = Some n -> string_forall (in_range "0" "9") s = true.
Proof.
  induction s as [|c s IH]; intros acc n H; cbn [parse_digits string_forall] in *;
    [reflexivity|].
  unfold digit_value in H.
  destruct (in_range "0" "9" c); [|discriminate]. now apply IH in H.
Qed.

Lemma array_index_digits (key : string) (i : N) :
  array_index key = Some i -> string_forall (in_range "0" "9") key = true.
Proof.
  unfold array_index. destruct key as [|c s]; [discriminate|].
  destruct (Ascii.eqb c "0" && negb (String.eqb s EmptyString)); [discriminate|].
  destruct (parse_digits 0 (String c s)) as [n|] eqn:E; [|discriminate].
  intros _. now apply parse_digits_digits in E.
Qed.

Lemma insert_index_keyed (i : N) (k : string) (n : SASSObjectItem)
  (l : list (N * (string * SASSObjectItem))) :
  map (fun p => (fst p, snd (snd p))) (insert_index i (k, n) l)
  = insert_index i n (map (fun p => (fst p, snd (snd p))) l) /\
  map (fun p => (fst p, fst (snd p))) (insert_index i (k, n) l)
  = insert_index i k (map (fun p => (fst p, fst (snd p))) l).
Proof.
  induction l as [|[j [k' n']] l [IH1 IH2]]; cbn [insert_index map fst snd];
    [now split|].
  destruct (i <=? j)%N; cbn [map fst snd]; [now split|].
  now rewrite IH1, IH2.
Qed.

Lemma index_entries_keyed_values (o : ISASSObject) :
  map snd (map snd (index_entries_keyed o)) = map snd (index_entries o).
Proof.
  transitivity
    (map snd (map (fun p : N * (string * SASSObjectItem) =>
                     (fst p, snd (snd p))) (index_entries_keyed o))).
  { rewrite !map_map. reflexivity. }
  f_equal.
  induction o as [|[k n] o IH]; cbn [index_entries_keyed index_entries];
    [reflexivity|].
  destruct (array_index k); [|exact IH].
  now rewrite (proj1 (insert_index_keyed _ _ _ _)), IH.
Qed.

Lemma index_entries_keyed_keys (o : ISASSObject) :
  map fst (map snd (index_entries_keyed o)) = map snd (index_names (map fst o)).
Proof.
  transitivity
    (map snd (map (fun p : N * (string * SASSObjectItem) =>
                     (fst p, fst (snd p))) (index_entries_keyed o))).
  { rewrite !map_map. reflexivity. }
  f_equal.
  induction o as [|[k n] o IH];
    cbn [index_entries_keyed index_names map fst]; [reflexivity|].
  destruct (array_index k); [|exact IH].
  now rewrite (proj2 (insert_index_keyed _ _ _ _)), IH.
Qed.

(** The entries in enumeration order carry the values [Object.values]
    returns, and their keys are the keys in enumeration order. *)
Lemma Object_entries_values (o : ISASSObject) :
  map snd (Object_entries o) = Object_values o.
Proof.
  unfold Object_entries, Object_values.
  rewrite map_app, index_entries_keyed_values. f_equal.
  induction o as [|[k n] o IH];
    cbn [string_entries_keyed string_entries]; [reflexivity|].
  destruct (array_index k); cbn [map snd]; now rewrite IH.
Qed.

Lemma Object_keys_enumeration (o : ISASSObject) :
  Object_keys o = enumeration_order (map fst o).
Proof.
  unfold Object_keys, Object_entries, enumeration_order.
  rewrite map_app, index_entries_keyed_keys. f_equal.
  induction o as [|[k n] o IH];
    cbn [string_entries_keyed string_names map fst]; [reflexivity|].
  destruct (array_index k); cbn [map fst]; now rewrite IH.
Qed.

Lemma enumeration_order_perm (keys : list string) :
  Permutation (enumeration_order keys) keys.
Proof.
  unfold enumeration_order.
  induction keys as [|k ks IH]; cbn [index_names string_names];
    [reflexivity|].
  destruct (array_index k) as [i|].
  - rewrite (Permutation_map snd (insert_index_perm i k (index_names ks))).
    cbn [map snd app]. now constructor.
  - rewrite <- Permutation_middle. now constructor.
Qed.

Lemma enumeration_order_no_digits (keys : list string) :
  Forall (fun k => string_forall (in_range "0" "9") k = false) keys ->
  enumeration_order keys = keys.
Proof.
  intros H.
  enough (E : index_names keys = [] /\ string_names keys = keys)
    by (unfold enumeration_order; destruct E as [-> ->]; reflexivity).
  induction H as [|k ks Hk _ [IHi IHs]]; cbn [index_names string_names];
    [now split|].
  destruct (array_index k) as [i|] eqn:E.
  - apply array_index_digits in E. congruence.
  - split; [exact IHi | now rewrite IHs].
Qed.

Lemma block_keys_NoDup (classNames : list string) :
  forall acc, NoDup acc -> NoDup (block_keys acc classNames).
Proof.
  induction classNames as [|t rest IH]; intros acc Hacc; cbn [block_keys];
    [exact Hacc|].
  destruct (block_of t) as [b|]; [|now apply IH].
  destruct (is_prototype_key b); cbn [orb]; [now apply IH|].
  destruct (existsb (String.eqb b) acc) eqn:E; [now apply IH|].
  apply IH. apply NoDup_app; [exact Hacc | repeat constructor; intros [] |].
  intros x Hx [<-|[]].
  apply existsb_eqb_In in Hx. congruence.
Qed.

(** X3.  The keys of the forest either variant returns, as [Object.keys],
    [for-in] and [Object.values] enumerate them, are the block names of the
    class names, names of members of [Object.prototype] left out, each
    once: those that are array indices first, in ascending order, then the
    others in the order of their first occurrence; so when no block name is
    made of digits only the keys come in the order of first occurrence.  In
    the canonical variant every block node carries its key as its name. *)
Theorem extractSCSS_keys_in_first_occurrence_order
  (classNames : list string) (f : ISASSObject) :
  map snd (Object_entries f) = Object_values f /\
  (forall localeCompare,
      extractSCSS localeCompare classNames = Normal f ->
      Object_keys f = enumeration_order (block_keys [] classNames) /\
      Permutation (Object_keys f) (block_keys [] classNames) /\
      NoDup (Object_keys f) /\
      (Forall (fun k => string_forall (in_range "0" "9") k = false)
              (block_keys [] classNames) ->
       Object_keys f = block_keys [] classNames) /\
      Forall (fun kn => parent (snd kn) = fst kn) f) /\
  (extractSCSS_legacy classNames = Normal f ->
   Object_keys f = enumeration_order (block_keys [] classNames) /\
   Permutation (Object_keys f) (block_keys [] classNames) /\
   NoDup (Object_keys f) /\
   (Forall (fun k => string_forall (in_range "0" "9") k = false)
           (block_keys [] classNames) ->
    Object_keys f = block_keys [] classNames)).
Proof.
  assert (Hfrom : map fst f = block_keys [] classNames ->
            Object_keys f = enumeration_order (block_keys [] classNames) /\
            Permutation (Object_keys f) (block_keys [] classNames) /\
            NoDup (Object_keys f) /\
            (Forall (fun k => string_forall (in_range "0" "9") k = false)
                    (block_keys [] classNames) ->
             Object_keys f = block_keys [] classNames)).
  { intros Hk. rewrite Object_keys_enumeration, Hk.
    split; [reflexivity|]. split; [apply enumeration_order_perm|].
    split; [|apply enumeration_order_no_digits].
    eapply Permutation_NoDup.
    - symmetry. apply enumeration_order_perm.
    - apply block_keys_NoDup. constructor. }
  split; [apply Object_entries_values|]. split.
  - intros lc H.
    assert (Hk : map fst f = block_keys [] classNames).
    { unfold extractSCSS in H.
      destruct (extractSCSS_loop [] classNames) as [o|] eqn:E; simpl in H;
        [|discriminate].
      inv H. rewrite keys_sort_blocks.
      now apply extractSCSS_loop_block_keys in E. }
    destruct (Hfrom Hk) as (H1 & H2 & H3 & H4).
    split; [exact H1|]. split; [exact H2|]. split; [exact H3|].
    split; [exact H4|].
    apply extractSCSS_ok in H. eapply Forall_impl; [|exact H].
    now intros [k n] (Hp & _).
  - intros H. apply Hfrom. now apply extractSCSS_legacy_loop_block_keys in H.
Qed.

Lemma extractSCSS_keys_in_first_occurrence_order_witness :
  block_keys [] ["b"; "10"; "toString"; "2"; "a"; "b__x"]
  = ["b"; "10"; "2"; "a"] /\
  Object_keys [("b", mkItem "b" [leaf "__x"]); ("10", leaf "10");
               ("2", leaf "2"); ("a", leaf "a")]
  = ["2"; "10"; "b"; "a"].
Proof.
  split; [vm_compute; reflexivity|].
  change ["2"; "10"; "b"; "a"]
    with (enumeration_order
            (block_keys [] ["b"; "10"; "toString"; "2"; "a"; "b__x"])).
  refine (proj1 (proj1 (proj2 (extractSCSS_keys_in_first_occurrence_order
                                 ["b"; "10"; "toString"; "2"; "a"; "b__x"]
                                 [("b", mkItem "b" [leaf "__x"]);
                                  ("10", leaf "10"); ("2", leaf "2");
                                  ("a", leaf "a")]))
                   codeunit_compare _)).
  vm_compute. reflexivity.
Defined.



(** ** The matcher on well-formed names *)

Lemma rmatch_Star (r1 : regex) st k :
  rmatch (Star r1) st k = star_loop r1 k (String.length (ms_rest st)) st.
Proof. reflexivity. Qed.

Lemma star_loop_S (r1 : regex) k fuel st :
  star_loop r1 k (S fuel) st
  = match rmatch r1 st (fun st1 =>
            if (String.length (ms_rest st1) <? String.length (ms_rest st))%nat
            then star_loop r1 k fuel st1 else None) with
    | Some res => Some res
    | None => k st
    end.
Proof. reflexivity. Qed.

Lemma rmatch_Seq (r1 r2 : regex) st k :
  rmatch (Seq r1 r2) st k = rmatch r1 st (fun st1 => rmatch r2 st1 k).
Proof. reflexivity. Qed.

Lemma rmatch_Chr_cons (p : ascii -> bool) pos c s mt cap k :
  rmatch (Chr p) (mkState pos (String c s) mt cap) k
  = if p c then k (mkState (S pos) s (mt ++ str1 c) cap) else None.
Proof. reflexivity. Qed.

Lemma rmatch_Chr_nil (p : ascii -> bool) pos mt cap k :
  rmatch (Chr p) (mkState pos EmptyString mt cap) k = None.
Proof. reflexivity. Qed.

Lemma alnum_not_hyphen (c : ascii) : alnum c = true -> Ascii.eqb "-" c = false.
Proof.
  intros H. destruct (Ascii.eqb "-" c) eqn:E; [|reflexivity].
  apply Ascii.eqb_eq in E. subst c. discriminate.
Qed.

Lemma alnum_not_underscore (c : ascii) :
  alnum c = true -> Ascii.eqb "_" c = false.
Proof.
  intros H. destruct (Ascii.eqb "_" c) eqn:E; [|reflexivity].
  apply Ascii.eqb_eq in E. subst c. discriminate.
Qed.

Lemma state_eq pos pos' r mt mt' cap :
  pos = pos' -> mt = mt' -> mkState pos r mt cap = mkState pos' r mt' cap.
Proof. now intros -> ->. Qed.

(** A greedy run of letters and digits takes them all. *)
Lemma star_alnum_greedy k res (w : string) :
  forall fuel pos r mt cap,
    string_forall alnum w = true ->
    alnum_stops r ->
    String.length (w ++ r) <= fuel ->
    k (mkState (pos + String.length w) r (mt ++ w) cap) = Some res ->
    star_loop (Chr alnum) k fuel (mkState pos (w ++ r) mt cap) = Some res.
Proof.
  induction w as [|c w IH]; intros fuel pos r mt cap Hw Hr Hf Hk.
  - cbn [String.length append] in *. rewrite Nat.add_0_r, append_empty_r in Hk.
    destruct fuel as [|fuel]; [exact Hk|]. rewrite star_loop_S.
    destruct r as [|c r].
    + now rewrite rmatch_Chr_nil.
    + rewrite rmatch_Chr_cons. simpl in Hr. now rewrite Hr.
  - cbn [string_forall] in Hw. apply andb_true_iff in Hw. destruct Hw as [Hc Hw].
    cbn [String.length append] in *.
    destruct fuel as [|fuel]; [lia|]. rewrite star_loop_S, rmatch_Chr_cons, Hc.
    cbn [ms_rest String.length].
    assert (Hlt : (String.length (w ++ r) <? S (String.length (w ++ r)))%nat
                  = true) by (apply Nat.ltb_lt; lia).
    rewrite Hlt. rewrite (IH fuel (S pos) r (mt ++ str1 c)%string cap);
      try assumption; [reflexivity | lia |].
    rewrite <- Hk. f_equal. apply state_eq; [lia | now rewrite append_assoc].
Qed.

Lemma plus_alnum_greedy k res (w : string) :
  forall pos r mt cap,
    bem_word w = true ->
    alnum_stops r ->
    k (mkState (pos + String.length w) r (mt ++ w) cap) = Some res ->
    rmatch (Plus (Chr alnum)) (mkState pos (w ++ r) mt cap) k = Some res.
Proof.
  intros pos r mt cap Hw Hr Hk. unfold bem_word in Hw.
  apply andb_true_iff in Hw. destruct Hw as [Hne Hw].
  destruct w as [|c w]; [discriminate|].
  cbn [string_forall] in Hw. apply andb_true_iff in Hw. destruct Hw as [Hc Hw].
  unfold Plus. cbn [append String.length] in *.
  rewrite rmatch_Seq, rmatch_Chr_cons, Hc, rmatch_Star. cbn [ms_rest].
  apply star_alnum_greedy; try assumption; [lia|].
  rewrite <- Hk. f_equal. apply state_eq; [lia | now rewrite append_assoc].
Qed.

Lemma hyphen_word_fails k pos r mt cap :
  name_stops r = true ->
  rmatch (Seq (Lit "-") (Plus (Chr alnum))) (mkState pos r mt cap) k = None.
Proof.
  intros Hr. cbn [Lit]. rewrite rmatch_Seq.
  destruct r as [|c r]; [apply rmatch_Chr_nil|].
  rewrite rmatch_Chr_cons. cbn [name_stops] in Hr.
  apply andb_true_iff in Hr. destruct Hr as [_ Hr].
  destruct (Ascii.eqb "-" c); [|reflexivity]. cbn [negb orb] in Hr.
  unfold Plus. rewrite rmatch_Seq.
  destruct r as [|d r]; [apply rmatch_Chr_nil|].
  rewrite rmatch_Chr_cons. apply negb_true_iff in Hr. now rewrite Hr.
Qed.

Lemma hyphen_tail_stops (ws : list string) (r : string) :
  name_stops r = true -> alnum_stops (hyphen_tail ws ++ r).
Proof.
  destruct ws as [|w ws]; cbn [hyphen_tail append].
  - destruct r as [|c r]; [intros _; exact I|]. cbn [name_stops alnum_stops].
    intros H. apply andb_true_iff in H. destruct H as [H _].
    now apply negb_true_iff in H.
  - intros _. reflexivity.
Qed.

(** The greedy iteration of hyphen-and-word takes every further word. *)
Lemma star_hyphen_greedy k res (ws : list string) :
  forall fuel pos r mt cap,
    forallb bem_word ws = true ->
    name_stops r = true ->
    String.length (hyphen_tail ws ++ r) <= fuel ->
    k (mkState (pos + String.length (hyphen_tail ws)) r
               (mt ++ hyphen_tail ws) cap) = Some res ->
    star_loop (Seq (Lit "-") (Plus (Chr alnum))) k fuel
              (mkState pos (hyphen_tail ws ++ r) mt cap) = Some res.
Proof.
  induction ws as [|w ws IH]; intros fuel pos r mt cap Hws Hr Hf Hk.
  - cbn [hyphen_tail String.length append] in *.
    rewrite Nat.add_0_r, append_empty_r in Hk.
    destruct fuel as [|fuel]; [exact Hk|].
    now rewrite star_loop_S, hyphen_word_fails.
  - cbn [forallb] in Hws. apply andb_true_iff in Hws. destruct Hws as [Hw Hws].
    cbn [hyphen_tail] in *.
    assert (Hlen : String.length (("-" ++ w ++ hyphen_tail ws) ++ r)
                   = S (String.length w + String.length (hyphen_tail ws ++ r))).
    { rewrite ?length_append. simpl. rewrite ?length_append. lia. }
    replace (("-" ++ w ++ hyphen_tail ws) ++ r)%string
      with (String "-" (w ++ (hyphen_tail ws ++ r))) in *
      by (simpl; now rewrite append_assoc).
    rewrite Hlen in Hf. destruct fuel as [|fuel]; [lia|].
    rewrite star_loop_S. cbn [Lit]. rewrite rmatch_Seq, rmatch_Chr_cons.
    change (Ascii.eqb "-" "-") with true. cbv iota.
    rewrite (plus_alnum_greedy _ res w); try assumption.
    + reflexivity.
    + now apply hyphen_tail_stops.
    + cbn [ms_rest String.length].
      assert (Hlt : (String.length (hyphen_tail ws ++ r)
                     <? S (String.length (w ++ hyphen_tail ws ++ r)))%nat = true)
        by (apply Nat.ltb_lt; rewrite (length_append w); lia).
      rewrite Hlt. apply IH; try assumption; [lia|].
      rewrite <- Hk. f_equal. apply state_eq.
      * simpl. rewrite length_append. lia.
      * simpl. now rewrite !append_assoc.
Qed.

Lemma NAME_greedy k res (ws : list string) :
  forall pos r mt cap,
    bem_words ws = true ->
    name_stops r = true ->
    k (mkState (pos + String.length (bem_name ws)) r (mt ++ bem_name ws) cap)
    = Some res ->
    rmatch NAME (mkState pos (bem_name ws ++ r) mt cap) k = Some res.
Proof.
  intros pos r mt cap Hws Hr Hk.
  destruct ws as [|w ws]; [discriminate|].
  cbn [bem_words forallb] in Hws. apply andb_true_iff in Hws.
  destruct Hws as [Hw Hws]. cbn [bem_name] in *.
  unfold NAME. rewrite rmatch_Seq, append_assoc.
  apply plus_alnum_greedy; [assumption | now apply hyphen_tail_stops |].
  rewrite rmatch_Star. cbn [ms_rest].
  apply star_hyphen_greedy; try assumption; [lia|].
  rewrite <- Hk. f_equal. apply state_eq.
  - rewrite length_append. lia.
  - now rewrite append_assoc.
Qed.

Lemma search_cons_fail (r : regex) pos c s :
  attempt r pos (String c s) = None ->
  search r pos (String c s) = search r (S pos) s.
Proof. intros H. cbn [search]. now rewrite H. Qed.

Lemma search_found (r : regex) pos s m :
  attempt r pos s = Some m -> search r pos s = Some m.
Proof. intros H. destruct s; cbn [search]; now rewrite H. Qed.

Lemma bem_name_nonempty (ws : list string) :
  bem_words ws = true -> exists c s, bem_name ws = String c s.
Proof.
  destruct ws as [|w ws]; [discriminate|]. cbn [bem_words forallb bem_name].
  intros H. apply andb_true_iff in H. destruct H as [H _].
  unfold bem_word in H. apply andb_true_iff in H. destruct H as [H _].
  destruct w as [|c w]; [discriminate|]. simpl. eauto.
Qed.

Lemma attempt_BLOCK (ws : list string) (r : string) :
  bem_words ws = true -> name_stops r = true ->
  exists m,
    attempt BLOCK_REGEX 0 (bem_name ws ++ r) = Some m /\ m_0 m = bem_name ws.
Proof.
  intros Hws Hr. unfold attempt, BLOCK_REGEX.
  cbn [rmatch ms_pos Nat.eqb].
  erewrite NAME_greedy; [|assumption|assumption|reflexivity].
  eexists. split; reflexivity.
Qed.

Lemma attempt_ELEMENT (ws : list string) (r : string) pos :
  bem_words ws = true -> name_stops r = true ->
  exists m,
    attempt ELEMENT_REGEX pos ("__" ++ bem_name ws ++ r) = Some m /\
    m_0 m = ("__" ++ bem_name ws)%string.
Proof.
  intros Hws Hr. unfold attempt, ELEMENT_REGEX. cbn [Lit append].
  rewrite !rmatch_Seq, !rmatch_Chr_cons.
  change (Ascii.eqb "_" "_") with true. cbv iota.
  cbn [rmatch]. fold NAME.
  erewrite NAME_greedy; [|assumption|assumption|reflexivity].
  eexists. split; reflexivity.
Qed.

Lemma attempt_MODIFIER (ws : list string) pos :
  bem_words ws = true ->
  exists m,
    attempt MODIFIER_REGEX pos ("--" ++ bem_name ws) = Some m /\
    m_0 m = ("--" ++ bem_name ws)%string.
Proof.
  intros Hws.
  enough (H : forall s, s = (bem_name ws ++ EmptyString)%string ->
                exists m,
                  attempt MODIFIER_REGEX pos ("--" ++ s) = Some m /\
                  m_0 m = ("--" ++ bem_name ws)%string)
    by (apply H; now rewrite append_empty_r).
  intros s ->. unfold attempt, MODIFIER_REGEX. cbn [Lit append].
  rewrite !rmatch_Seq, !rmatch_Chr_cons.
  change (Ascii.eqb "-" "-") with true. cbv iota.
  cbn [rmatch]. fold NAME.
  erewrite NAME_greedy; [|assumption|reflexivity|reflexivity].
  eexists. split; reflexivity.
Qed.

Lemma attempt_ELEMENT_fail pos c s :
  Ascii.eqb "_" c = false -> attempt ELEMENT_REGEX pos (String c s) = None.
Proof.
  intros H. unfold attempt, ELEMENT_REGEX. cbn [Lit].
  now rewrite !rmatch_Seq, rmatch_Chr_cons, H.
Qed.

Lemma search_ELEMENT_skip (skipped : string) :
  forall pos s,
    count_char "_" skipped = 0 ->
    search ELEMENT_REGEX pos (skipped ++ s)
    = search ELEMENT_REGEX (pos + String.length skipped) s.
Proof.
  induction skipped as [|c w IH]; intros pos s H; cbn [append String.length].
  - now rewrite Nat.add_0_r.
  - cbn [count_char] in H.
    assert (Hc : Ascii.eqb "_" c = false).
    { rewrite Ascii.eqb_sym. destruct (Ascii.eqb c "_"); [discriminate | reflexivity]. }
    rewrite search_cons_fail by now apply attempt_ELEMENT_fail.
    rewrite IH.
    + f_equal. lia.
    + rewrite Ascii.eqb_sym, Hc in H. exact H.
Qed.

Lemma search_ELEMENT_none (s : string) pos :
  count_char "_" s = 0 -> search ELEMENT_REGEX pos s = None.
Proof.
  intros H. rewrite <- (append_empty_r s), search_ELEMENT_skip by assumption.
  reflexivity.
Qed.

Lemma attempt_MODIFIER_fail pos c s :
  (negb (Ascii.eqb "-" c) ||
   match s with
   | EmptyString => false
   | String d _ => negb (Ascii.eqb "-" d)
   end) = true ->
  attempt MODIFIER_REGEX pos (String c s) = None.
Proof.
  intros H. unfold attempt, MODIFIER_REGEX. cbn [Lit].
  rewrite !rmatch_Seq, rmatch_Chr_cons.
  destruct (Ascii.eqb "-" c); [|reflexivity]. cbn [negb orb] in H.
  destruct s as [|d s]; [discriminate|].
  apply negb_true_iff in H. now rewrite rmatch_Chr_cons, H.
Qed.

Lemma search_MODIFIER_skip (skipped : string) :
  forall pos s,
    single_hyphens skipped = true ->
    search MODIFIER_REGEX pos (skipped ++ s)
    = search MODIFIER_REGEX (pos + String.length skipped) s.
Proof.
  induction skipped as [|c w IH]; intros pos s H; cbn [append String.length].
  - now rewrite Nat.add_0_r.
  - cbn [single_hyphens] in H. apply andb_true_iff in H. destruct H as [Hc Hw].
    rewrite search_cons_fail.
    + rewrite IH by assumption. f_equal. lia.
    + apply attempt_MODIFIER_fail.
      destruct (Ascii.eqb "-" c); [|reflexivity]. cbn [negb orb] in *.
      destruct w as [|d w]; [discriminate | exact Hc].
Qed.

Lemma search_MODIFIER_none (s : string) pos :
  single_hyphens s = true -> search MODIFIER_REGEX pos s = None.
Proof.
  intros H. rewrite <- (append_empty_r s), search_MODIFIER_skip by assumption.
  reflexivity.
Qed.

(** Names hold no underscore, and their hyphens stand alone. *)
Lemma word_no_underscore (w : string) :
  string_forall alnum w = true -> count_char "_" w = 0.
Proof.
  induction w as [|c w IH]; cbn [string_forall count_char]; [reflexivity|].
  intros H. apply andb_true_iff in H. destruct H as [Hc Hw].
  apply alnum_not_underscore in Hc. rewrite Ascii.eqb_sym, Hc. now apply IH.
Qed.

Lemma bem_word_alnum (w : string) :
  bem_word w = true -> string_forall alnum w = true.
Proof. unfold bem_word. intros H. now apply andb_true_iff in H. Qed.

Lemma hyphen_tail_no_underscore (ws : list string) :
  forallb bem_word ws = true -> count_char "_" (hyphen_tail ws) = 0.
Proof.
  induction ws as [|w ws IH]; cbn [forallb hyphen_tail]; [reflexivity|].
  intros H. apply andb_true_iff in H. destruct H as [Hw Hws].
  change ("-" ++ w ++ hyphen_tail ws)%string
    with (String "-" (w ++ hyphen_tail ws)).
  cbn [count_char]. change (Ascii.eqb "-" "_") with false.
  rewrite count_char_app, word_no_underscore, IH;
    [reflexivity | assumption | now apply bem_word_alnum].
Qed.

Lemma bem_name_no_underscore (ws : list string) :
  bem_words ws = true -> count_char "_" (bem_name ws) = 0.
Proof.
  destruct ws as [|w ws]; [discriminate|]. cbn [bem_words forallb bem_name].
  intros H. apply andb_true_iff in H. destruct H as [Hw Hws].
  rewrite count_char_app, word_no_underscore, hyphen_tail_no_underscore;
    [reflexivity | assumption | now apply bem_word_alnum].
Qed.

Lemma single_hyphens_app (a b : string) :
  single_hyphens a = true -> single_hyphens b = true ->
  single_hyphens (a ++ b) = true.
Proof.
  induction a as [|c a IH]; cbn [append single_hyphens]; [auto|].
  intros Ha Hb. apply andb_true_iff in Ha. destruct Ha as [Hc Ha].
  apply andb_true_iff. split; [|now apply IH].
  destruct (Ascii.eqb "-" c); [|reflexivity]. cbn [negb orb] in *.
  destruct a as [|d a]; [discriminate | exact Hc].
Qed.

Lemma word_single_hyphens (w : string) :
  string_forall alnum w = true -> single_hyphens w = true.
Proof.
  induction w as [|c w IH]; cbn [string_forall single_hyphens]; [reflexivity|].
  intros H. apply andb_true_iff in H. destruct H as [Hc Hw].
  apply alnum_not_hyphen in Hc. rewrite Hc. now apply IH.
Qed.

Lemma hyphen_tail_single_hyphens (ws : list string) :
  forallb bem_word ws = true -> single_hyphens (hyphen_tail ws) = true.
Proof.
  induction ws as [|w ws IH]; cbn [forallb hyphen_tail]; [reflexivity|].
  intros H. apply andb_true_iff in H. destruct H as [Hw Hws].
  change ("-" ++ w ++ hyphen_tail ws)%string
    with (String "-" (w ++ hyphen_tail ws)).
  cbn [single_hyphens]. apply andb_true_iff. split.
  - unfold bem_word in Hw. apply andb_true_iff in Hw. destruct Hw as [Hne Hw].
    destruct w as [|c w]; [discriminate|]. cbn [append string_forall] in *.
    apply andb_true_iff in Hw. destruct Hw as [Hc _].
    apply alnum_not_hyphen in Hc. now rewrite Hc.
  - apply single_hyphens_app; [|now apply IH].
    now apply word_single_hyphens, bem_word_alnum.
Qed.

Lemma bem_name_single_hyphens (ws : list string) :
  bem_words ws = true -> single_hyphens (bem_name ws) = true.
Proof.
  destruct ws as [|w ws]; [discriminate|]. cbn [bem_words forallb bem_name].
  intros H. apply andb_true_iff in H. destruct H as [Hw Hws].
  apply single_hyphens_app; [|now apply hyphen_tail_single_hyphens].
  now apply word_single_hyphens, bem_word_alnum.
Qed.

Lemma or_null_cons (c : ascii) (s : string) :
  or_null (Some (String c s)) = Some (String c s).
Proof. reflexivity. Qed.

Lemma bem_class_block_match (block : list string)
  (element modifier : option (list string)) :
  bem_words block = true ->
  exists m,
    str_match BLOCK_REGEX (bem_class block element modifier) = Some m /\
    m_0 m = bem_name block.
Proof.
  intros Hb. unfold str_match, bem_class.
  destruct (attempt_BLOCK block
              (match element with
               | Some e => "__" ++ bem_name e
               | None => EmptyString
               end
               ++ match modifier with
                  | Some m => "--" ++ bem_name m
                  | None => EmptyString
                  end)%string Hb) as (m & Hm & H0).
  { destruct element, modifier; reflexivity. }
  exists m. split; [now apply search_found | exact H0].
Qed.

Lemma bem_class_element_match (block : list string)
  (element modifier : option (list string)) :
  bem_words block = true ->
  bem_words_opt element = true -> bem_words_opt modifier = true ->
  match0 (str_match ELEMENT_REGEX (bem_class block element modifier))
  = option_map (fun e => "__" ++ bem_name e)%string element.
Proof.
  intros Hb He Hm. unfold str_match, bem_class.
  destruct element as [e|]; cbn [option_map bem_words_opt] in *.
  - rewrite search_ELEMENT_skip by now apply bem_name_no_underscore.
    destruct (attempt_ELEMENT e
                (match modifier with
                 | Some m => "--" ++ bem_name m
                 | None => EmptyString
                 end)%string (0 + String.length (bem_name block)) He)
      as (m & Hmatch & H0).
    { destruct modifier; reflexivity. }
    rewrite append_assoc. cbn [append] in Hmatch |- *.
    rewrite (search_found _ _ _ _ Hmatch). cbn [match0 option_map].
    now rewrite H0.
  - rewrite search_ELEMENT_none; [reflexivity|].
    rewrite count_char_app, bem_name_no_underscore by assumption.
    destruct modifier as [m|]; [|reflexivity].
    cbn [bem_words_opt] in Hm.
    change (count_char "_" (bem_name m) = 0).
    now apply bem_name_no_underscore.
Qed.

Lemma bem_class_modifier_match (block : list string)
  (element modifier : option (list string)) :
  bem_words block = true ->
  bem_words_opt element = true -> bem_words_opt modifier = true ->
  match0 (str_match MODIFIER_REGEX (bem_class block element modifier))
  = option_map (fun m => "--" ++ bem_name m)%string modifier.
Proof.
  intros Hb He Hm. unfold str_match, bem_class.
  set (left := (bem_name block
                ++ match element with
                   | Some e => "__" ++ bem_name e
                   | None => EmptyString
                   end)%string).
  assert (Hleft : single_hyphens left = true).
  { unfold left. apply single_hyphens_app;
      [now apply bem_name_single_hyphens|].
    destruct element as [e|]; [|reflexivity].
    change (single_hyphens (bem_name e) = true).
    now apply bem_name_single_hyphens. }
  rewrite <- append_assoc. fold left.
  destruct modifier as [m|]; cbn [option_map bem_words_opt] in *.
  - rewrite search_MODIFIER_skip by assumption.
    destruct (attempt_MODIFIER m (0 + String.length left) Hm)
      as (mm & Hmatch & H0).
    rewrite (search_found _ _ _ _ Hmatch). cbn [match0 option_map].
    now rewrite H0.
  - rewrite append_empty_r, search_MODIFIER_none by assumption. reflexivity.
Qed.

(** X6.  Round trip of the BEM convention: for a block, an optional element
    and an optional modifier, each made of words of letters and digits
    joined by single hyphens, the tokenizer applied to the class name
    written from them gives the block back, the element behind its two
    underscores and the modifier behind its two hyphens, and gives an
    absent component where none was written. *)
Theorem splitClassNameByBEMRule_bem_class (block : list string)
  (element modifier : option (list string)) :
  bem_words block = true ->
  bem_words_opt element = true ->
  bem_words_opt modifier = true ->
  splitClassNameByBEMRule (bem_class block element modifier)
  = (Some (bem_name block),
     option_map (fun e => "__" ++ bem_name e)%string element,
     option_map (fun m => "--" ++ bem_name m)%string modifier).
Proof.
  intros Hb He Hm. unfold splitClassNameByBEMRule.
  destruct (bem_class_block_match block element modifier Hb) as (mb & -> & ->).
  rewrite bem_class_element_match, bem_class_modifier_match by assumption.
  destruct element, modifier; reflexivity.
Qed.

Lemma splitClassNameByBEMRule_bem_class_witness :
  splitClassNameByBEMRule "view-cart__sub-title--extra-large"
  = (Some "view-cart", Some "__sub-title", Some "--extra-large").
Proof.
  exact (splitClassNameByBEMRule_bem_class
           ["view"; "cart"] (Some ["sub"; "title"]) (Some ["extra"; "large"])
           eq_refl eq_refl eq_refl).
Defined.

(** ** The components are pieces of the class name *)

Lemma search_BLOCK_later (s : string) :
  forall pos, search BLOCK_REGEX (S pos) s = None.
Proof.
  induction s as [|c s IH]; intros pos; cbn [search].
  - reflexivity.
  - change (attempt BLOCK_REGEX (S pos) (String c s)) with (@None match_result).
    apply IH.
Qed.

Lemma str_match_BLOCK_prefix (s : string) (m : match_result) :
  str_match BLOCK_REGEX s = Some m -> s = (m_0 m ++ m_after m)%string.
Proof.
  unfold str_match. intros H.
  destruct (attempt BLOCK_REGEX 0 s) as [m'|] eqn:E.
  - rewrite (search_found _ _ _ _ E) in H. inv H.
    now apply attempt_sound in E.
  - destruct s as [|c s]; cbn [search] in H; rewrite E in H; [discriminate|].
    now rewrite search_BLOCK_later in H.
Qed.

Lemma accepts_NAME_name_char (c : ascii) :
  accepts NAME c = true -> name_char c = true.
Proof.
  unfold name_char, NAME, Plus. cbn [accepts Lit].
  destruct (alnum c); [reflexivity|].
  destruct (Ascii.eqb "-" c); [reflexivity | discriminate].
Qed.

Lemma lang_NAME_shape (w : string) :
  lang NAME w -> w <> EmptyString /\ string_forall name_char w = true.
Proof.
  intros H. split.
  - unfold NAME, Plus in H. lang_inv. discriminate.
  - apply lang_accepts in H. eapply string_forall_impl; [|exact H].
    apply accepts_NAME_name_char.
Qed.

Lemma search_attempt (r : regex) (s : string) :
  forall pos m,
    search r pos s = Some m -> exists pos' s', attempt r pos' s' = Some m.
Proof.
  induction s as [|c s IH]; intros pos m H; cbn [search] in H.
  - destruct (attempt r pos EmptyString) eqn:E; [|discriminate]. inv H. eauto.
  - destruct (attempt r pos (String c s)) eqn:E; [inv H; eauto|].
    now apply IH in H.
Qed.

Lemma attempt_MODIFIER_end pos s m :
  attempt MODIFIER_REGEX pos s = Some m -> m_after m = EmptyString.
Proof.
  unfold attempt, MODIFIER_REGEX. intros H.
  destruct (rmatch _ _ Some) as [res|] eqn:E; [|discriminate]. inv H. simpl.
  rewrite rmatch_Seq in E. apply rmatch_sound in E.
  destruct E as (_ & st1 & _ & _ & _ & E).
  rewrite rmatch_Seq in E. apply rmatch_sound in E.
  destruct E as (_ & st2 & _ & _ & _ & E).
  cbn [rmatch] in E. destruct (ms_rest st2) eqn:R; [|discriminate].
  now inv E.
Qed.

(** X5.  The components the tokenizer returns are pieces of the class
    name: the block is a non-empty prefix made of letters, digits and
    hyphens, the element occurs somewhere in the class name, and the
    modifier ends it. *)
Theorem splitClassNameByBEMRule_pieces (classString : string)
  (b e m : option string) :
  splitClassNameByBEMRule classString = (b, e, m) ->
  (forall s, b = Some s ->
     s <> EmptyString /\ string_forall name_char s = true /\
     exists rest, classString = (s ++ rest)%string) /\
  (forall s, e = Some s ->
     exists before rest, classString = (before ++ s ++ rest)%string) /\
  (forall s, m = Some s ->
     exists before, classString = (before ++ s)%string).
Proof.
  unfold splitClassNameByBEMRule.
  destruct (str_match BLOCK_REGEX classString) as [mb|] eqn:Eb; intros H; inv H.
  - repeat split.
    + inv H. apply str_match_lang in Eb. unfold BLOCK_REGEX in Eb. lang_inv.
      simpl. now apply lang_NAME_shape.
    + inv H. apply str_match_lang in Eb. unfold BLOCK_REGEX in Eb. lang_inv.
      simpl. now apply lang_NAME_shape.
    + inv H. apply str_match_BLOCK_prefix in Eb. eauto.
    + intros s Hs. apply or_null_Some in Hs.
      destruct (str_match ELEMENT_REGEX classString) as [me|] eqn:Ee;
        [|discriminate].
      inv Hs. apply search_sound in Ee. destruct Ee as (_ & sk & Hsk & _). eauto.
    + intros s Hs. apply or_null_Some in Hs.
      destruct (str_match MODIFIER_REGEX classString) as [mm|] eqn:Em;
        [|discriminate].
      inv Hs. pose proof Em as Hend. apply search_attempt in Hend.
      destruct Hend as (pos' & s' & Hend). apply attempt_MODIFIER_end in Hend.
      apply search_sound in Em. destruct Em as (_ & sk & Hsk & _).
      rewrite Hend, append_empty_r in Hsk. eauto.
  - repeat split; intros; discriminate.
Qed.

Lemma splitClassNameByBEMRule_pieces_witness :
  exists before, "card__title--big" = (before ++ "--big")%string.
Proof.
  exact (proj2 (proj2 (splitClassNameByBEMRule_pieces "card__title--big"
                         (Some "card") (Some "__title") (Some "--big") eq_refl))
           "--big" eq_refl).
Defined.

(** ** What the extractor hands over *)

Lemma substring_all (w : string) : substring 0 (String.length w) w = w.
Proof. induction w as [|c w IH]; simpl; [reflexivity | now rewrite IH]. Qed.

Lemma substring_suffix (a w : string) :
  substring (String.length a) (String.length (a ++ w) - String.length a)
            (a ++ w) = w.
Proof.
  induction a as [|c a IH]; simpl.
  - rewrite Nat.sub_0_r. apply substring_all.
  - exact IH.
Qed.

Lemma lang_Lit (s : string) : forall w, lang (Lit s) w -> w = s.
Proof.
  induction s as [|c s IH]; intros w H.
  - now inv H.
  - destruct s as [|d s]; cbn [Lit] in H.
    + lang_inv. reflexivity.
    + lang_inv.
      match goal with
      | H : lang _ _ |- _ => apply IH in H; subst
      end.
      reflexivity.
Qed.

Lemma getAllClassName_flat_map (htmlString : string) :
  getAllClassName htmlString
  = flat_map split_space (class_attribute_values htmlString).
Proof.
  unfold getAllClassName, class_attribute_values.
  induction (matchAll CLASS_NAME_REGEX htmlString) as [|m l IH];
    simpl; [reflexivity | now rewrite IH].
Qed.

Lemma lang_Seq_inv (r1 r2 : regex) (w : string) :
  lang (Seq r1 r2) w ->
  exists w1 w2, w = (w1 ++ w2)%string /\ lang r1 w1 /\ lang r2 w2.
Proof. intros H. inv H. eauto. Qed.

(** A match of the class-attribute expression starts with [class] and
    captures a non-empty value without quotes. *)
Lemma attempt_CLASS_NAME pos s m :
  attempt CLASS_NAME_REGEX pos s = Some m ->
  (exists rest, m_0 m = ("class" ++ rest)%string) /\
  exists v,
    m_1 m = Some v /\ v <> EmptyString /\ string_forall not_quote v = true.
Proof.
  intros H. split.
  - apply attempt_sound in H. destruct H as (L & _ & _).
    unfold CLASS_NAME_REGEX in L. apply lang_Seq_inv in L.
    destruct L as (w1 & w2 & -> & L1 & _). apply lang_Lit in L1. subst. eauto.
  - unfold attempt in H.
    destruct (rmatch _ _ Some) as [res|] eqn:E; [|discriminate]. inv H.
    cbn [m_1]. unfold CLASS_NAME_REGEX in E.
    do 4 (rewrite rmatch_Seq in E; apply rmatch_sound in E;
          destruct E as (_ & ? & _ & _ & _ & E)).
    rewrite rmatch_Seq in E. cbn [rmatch] in E.
    change (rmatch (Seq (Chr not_quote) (Star (Chr not_quote))))
      with (rmatch (Plus (Chr not_quote))) in E.
    apply rmatch_sound in E. destruct E as (w & st5 & L & _ & M & E).
    match type of E with
    | match ms_rest ?st with _ => _ end = _ =>
        destruct (ms_rest st) as [|c s'']; [discriminate|]
    end.
    destruct (is_quote c); [|discriminate]. inv E. cbn [consume capture ms_cap].
    exists w. rewrite M, substring_suffix. split; [reflexivity|]. split.
    + unfold Plus in L. lang_inv. discriminate.
    + apply lang_accepts in L. eapply string_forall_impl; [|exact L].
      intros d Hd. cbn [Plus accepts] in Hd.
      now destruct (not_quote d).
Qed.

Lemma matchAll_from_attempt (r : regex) (fuel : nat) :
  forall pos s,
    Forall (fun m => exists pos' s', attempt r pos' s' = Some m)
           (matchAll_from fuel r pos s).
Proof.
  induction fuel as [|fuel IH]; intros pos s; cbn [matchAll_from];
    [constructor|].
  destruct (search r pos s) as [m|] eqn:E; [|constructor].
  constructor; [now apply search_attempt in E|].
  destruct (m_0 m); [destruct (m_after m); [constructor | apply IH] | apply IH].
Qed.

Lemma split_on_pieces (sep q : ascii -> bool) (s : string) :
  forall cur,
    string_forall (fun c => negb (sep c) && q c) cur = true ->
    string_forall q s = true ->
    Forall (fun t => string_forall (fun c => negb (sep c) && q c) t = true)
           (split_on sep cur s).
Proof.
  induction s as [|c s IH]; intros cur Hcur Hs; cbn [split_on string_forall] in *.
  - now repeat constructor.
  - apply andb_true_iff in Hs. destruct Hs as [Hc Hs].
    destruct (sep c) eqn:E.
    + constructor; [assumption | now apply IH].
    + apply IH; [|assumption].
      rewrite string_forall_app, Hcur. simpl. now rewrite E, Hc.
Qed.

(** X7.  Every attribute value the extractor finds is non-empty and holds
    no quote, and every class name it returns holds neither a space nor a
    quote. *)
Theorem getAllClassName_tokens (htmlString : string) :
  Forall (fun v => v <> EmptyString /\ string_forall not_quote v = true)
         (class_attribute_values htmlString) /\
  Forall (fun t => string_forall token_char t = true)
         (getAllClassName htmlString).
Proof.
  assert (Hv : Forall (fun v => v <> EmptyString /\
                                string_forall not_quote v = true)
                 (class_attribute_values htmlString)).
  { unfold class_attribute_values, matchAll. apply Forall_map.
    eapply Forall_impl; [|apply matchAll_from_attempt].
    intros m (pos' & s' & H). apply attempt_CLASS_NAME in H.
    destruct H as (_ & v & Hv & Hne & Hq). unfold group1. now rewrite Hv. }
  split; [exact Hv|].
  rewrite getAllClassName_flat_map.
  induction Hv as [|v l [_ Hq] _ IH]; cbn [flat_map]; [constructor|].
  apply Forall_app. split; [|exact IH].
  unfold split_space, token_char. now apply split_on_pieces.
Qed.

(** ** Text without a class attribute *)

Lemma substring_middle (a w b : string) :
  substring (String.length a) (String.length w) (a ++ w ++ b) = w.
Proof.
  induction a as [|c a IH]; simpl; [|exact IH].
  revert b. induction w as [|c w IHw]; intros b; simpl.
  - now destruct b.
  - now rewrite IHw.
Qed.

Lemma matchAll_CLASS_NAME_none (htmlString : string) :
  String.index 0 "class" htmlString = None ->
  matchAll CLASS_NAME_REGEX htmlString = [].
Proof.
  intros Hidx. unfold matchAll. cbn [matchAll_from].
  destruct (search CLASS_NAME_REGEX 0 htmlString) as [m|] eqn:E; [|reflexivity].
  exfalso. pose proof E as Ha. apply search_attempt in Ha.
  destruct Ha as (pos' & s' & Ha). apply attempt_CLASS_NAME in Ha.
  destruct Ha as ((rest & H0) & _).
  apply search_sound in E. destruct E as (_ & sk & Hs & _).
  rewrite H0, append_assoc in Hs.
  apply (index_correct3 0 (String.length sk) "class" htmlString Hidx);
    [discriminate | lia |].
  rewrite Hs. apply (substring_middle sk "class").
Qed.

(** X8.  On a selection in which the word [class] does not occur the
    extractor returns no class name, and the command completes: it writes
    the empty text to the clipboard and shows its message. *)
Theorem copySass_without_class (htmlString : string) :
  String.index 0 "class" htmlString = None ->
  getAllClassName htmlString = [] /\
  forall localeCompare,
    copySass localeCompare (Some htmlString)
    = Normal (Some (mkEffects EmptyString "Sass content copied")).
Proof.
  intros H. apply matchAll_CLASS_NAME_none in H.
  assert (E : getAllClassName htmlString = [])
    by (unfold getAllClassName; now rewrite H).
  split; [exact E|]. intros lc. unfold copySass. now rewrite E.
Qed.

Lemma copySass_without_class_witness :
  getAllClassName "<div id='main'><span>text</span></div>" = [].
Proof.
  exact (proj1 (copySass_without_class
                  "<div id='main'><span>text</span></div>" eq_refl)).
Defined.

(** X9.  The command on a selection: without an active editor it does
    nothing; with one, it completes exactly when every class name with an
    element or a modifier comes after a class name with the same block and
    neither element nor modifier, and that block is not named like a member
    of [Object.prototype] ([toString], [constructor], ...); the text written
    to the clipboard then has its braces properly nested and closed.
    Otherwise [extractSCSS] throws, before the clipboard is written and
    before the message is shown. *)
Theorem copySass_outcome (localeCompare : string -> string -> Z)
  (selectedText : string) :
  copySass localeCompare None = Normal None /\
  (declared_first [] (getAllClassName selectedText) = true ->
   exists text,
     copySass localeCompare (Some selectedText)
     = Normal (Some (mkEffects text "Sass content copied")) /\
     balanced text) /\
  (declared_first [] (getAllClassName selectedText) = false ->
   copySass localeCompare (Some selectedText) = Throw TypeError).
Proof.
  split; [reflexivity|].
  pose proof (extractSCSS_loop_declared (getAllClassName selectedText) [] [])
    as H.
  assert (Hinv : forall b : string, In b (map fst (@nil (string * SASSObjectItem)))
                                    <-> In b []) by (intros b; reflexivity).
  specialize (H Hinv). unfold copySass.
  destruct (extractSCSS localeCompare (getAllClassName selectedText))
    as [f|[]] eqn:E.
  - split; [|intros Hd].
    + intros _. eexists. split; [reflexivity|].
      apply extractSCSS_ok, forest_ok_SelectorForest, SelectorForest_values in E.
      unfold balanced, generateSCSS. now apply generateSCSS_scan.
    + unfold extractSCSS in E.
      destruct (extractSCSS_loop [] (getAllClassName selectedText)) as [o|] eqn:El;
        [|discriminate].
      destruct H as [H _]. rewrite H in Hd by eauto. discriminate.
  - split; [intros Hd|reflexivity].
    apply H in Hd. destruct Hd as [o Ho]. unfold extractSCSS in E.
    rewrite Ho in E. discriminate.
Qed.

Lemma copySass_outcome_witness :
  exists text,
    copySass codeunit_compare (Some "<p class='card card__title'>")
    = Normal (Some (mkEffects text "Sass content copied")) /\
    balanced text.
Proof.
  exact (proj1 (proj2 (copySass_outcome codeunit_compare
                         "<p class='card card__title'>")) eq_refl).
Defined.

(** ** One rule for every node *)

Lemma node_count_unfold (n : SASSObjectItem) :
  node_count n = S (list_sum (map node_count (children n))).
Proof.
  destruct n as [name kids]. cbn [node_count children]. f_equal.
  induction kids as [|c l IH]; [reflexivity|].
  change (list_sum (map node_count (c :: l)))
    with (node_count c + list_sum (map node_count l)).
  now rewrite <- IH.
Qed.

Lemma brace_free_no_open (s : string) :
  brace_free s = true -> count_char "{" s = 0.
Proof.
  unfold brace_free, is_brace.
  induction s as [|c s IH]; cbn [string_forall count_char]; [reflexivity|].
  intros H. apply andb_true_iff in H. destruct H as [Hc Hs].
  destruct (Ascii.eqb c "{"); [discriminate|]. now apply IH.
Qed.

Lemma parseToSCSS_count (n : SASSObjectItem) :
  all_names brace_free n = true ->
  forall parentSelector indentLevel,
    count_char "{" (parseToSCSS n parentSelector indentLevel) = node_count n.
Proof.
  induction n as [name kids IH] using SASSObjectItem_induction.
  rewrite all_names_unfold. intros H sel lvl. cbn [parent children] in H.
  apply andb_true_iff in H. destruct H as [Hname Hkids].
  rewrite parseToSCSS_unfold, node_count_unfold. cbv zeta. cbn [children].
  set (cur := (if negb (truthy (Some sel)) then "." ++ name else "&" ++ name)%string).
  assert (Hcur : count_char "{" cur = 0).
  { apply brace_free_no_open. unfold cur.
    destruct (negb (truthy (Some sel))); exact Hname. }
  assert (Hk : count_char "{"
                 (fold_right (fun child rest =>
                    (parseToSCSS child cur (lvl + 1) ++ rest)%string)
                  EmptyString kids)
               = list_sum (map node_count kids)).
  { clear Hcur. induction IH as [|c l Hc _ IHl]; [reflexivity|].
    cbn [forallb] in Hkids. apply andb_true_iff in Hkids.
    destruct Hkids as [Hc' Hl]. cbn [fold_right map list_sum].
    rewrite count_char_app, Hc, IHl by assumption. reflexivity. }
  rewrite !count_char_app, Hcur, Hk.
  rewrite (brace_free_no_open _ (brace_free_indent lvl)).
  assert (Htail : count_char "{"
                    (if (lvl =? 0)%nat then str1 newline else EmptyString) = 0)
    by (destruct (lvl =? 0)%nat; reflexivity).
  rewrite Htail.
  change (count_char "{" " {") with 1.
  change (count_char "{" (str1 newline)) with 0.
  change (count_char "{" "  ") with 0.
  change (count_char "{" "}") with 0. lia.
Qed.

(** [Object.values] lists every node of the object once. *)
Lemma Object_values_perm (o : ISASSObject) :
  Permutation (Object_values o) (map snd o).
Proof.
  unfold Object_values.
  induction o as [|[k n] o IH]; cbn [index_entries string_entries map snd];
    [reflexivity|].
  destruct (array_index k) as [i|].
  - rewrite (Permutation_map snd (insert_index_perm i n (index_entries o))).
    cbn [map snd app]. now constructor.
  - rewrite <- Permutation_middle. now constructor.
Qed.

Lemma list_sum_perm (l l' : list nat) :
  Permutation l l' -> list_sum l = list_sum l'.
Proof.
  induction 1; simpl; lia.
Qed.

Lemma generateSCSS_count_from (l : list SASSObjectItem) :
  Forall (fun n => all_names brace_free n = true) l ->
  forall acc,
    count_char "{"
      (fold_left (fun result block =>
                    (result ++ parseToSCSS block EmptyString 0)%string) l acc)
    = count_char "{" acc + list_sum (map node_count l).
Proof.
  induction 1 as [|n l Hn _ IH]; intros acc; simpl; [lia|].
  rewrite IH, count_char_app, parseToSCSS_count by assumption. lia.
Qed.

(** X10.  The text [generateSCSS] returns for a selector forest opens one
    rule, and closes one, for every node of the forest. *)
Theorem generateSCSS_one_rule_per_node (f : ISASSObject) :
  SelectorForest f ->
  count_char "{" (generateSCSS f)
  = list_sum (map (fun kn => node_count (snd kn)) f) /\
  count_char "}" (generateSCSS f)
  = list_sum (map (fun kn => node_count (snd kn)) f).
Proof.
  intros Hf. apply SelectorForest_values in Hf.
  assert (Hopen : count_char "{" (generateSCSS f)
                  = list_sum (map (fun kn => node_count (snd kn)) f)).
  { unfold generateSCSS. rewrite generateSCSS_count_from by assumption.
    cbn [count_char]. rewrite <- (map_map snd node_count).
    apply list_sum_perm, Permutation_map, Object_values_perm. }
  split; [exact Hopen|]. rewrite <- Hopen. symmetry.
  apply balanced_count. unfold balanced, generateSCSS.
  now apply generateSCSS_scan.
Qed.

Lemma generateSCSS_one_rule_per_node_witness :
  count_char "{"
    (generateSCSS [("card", mkItem "card" [leaf "--large";
                                           mkItem "__title" [leaf "--big"]])])
  = list_sum (map (fun kn => node_count (snd kn))
                [("card", mkItem "card" [leaf "--large";
                                         mkItem "__title" [leaf "--big"]])]).
Proof.
  exact (proj1 (generateSCSS_one_rule_per_node
                  [("card", mkItem "card" [leaf "--large";
                                           mkItem "__title" [leaf "--big"]])]
                  ltac:(repeat constructor))).
Defined.

(** ** The order of the blocks in the text *)

Lemma Object_values_creation_order (o : ISASSObject) :
  Forall (fun kn => string_forall (in_range "0" "9") (fst kn) = false) o ->
  Object_values o = map snd o.
Proof.
  intros H.
  enough (E : index_entries o = [] /\ string_entries o = map snd o)
    by (unfold Object_values; destruct E as [-> ->]; reflexivity).
  induction H as [|[k n] o Hk _ [IHi IHs]];
    cbn [index_entries string_entries map snd]; [now split|].
  cbn [fst] in Hk.
  destruct (array_index k) as [i|] eqn:E.
  - apply array_index_digits in E. congruence.
  - split; [exact IHi | now rewrite IHs].
Qed.

Lemma fold_left_append {A : Type} (g : A -> string) (l : list A) :
  forall acc,
    fold_left (fun result x => (result ++ g x)%string) l acc
    = (acc ++ fold_right (fun x rest => (g x ++ rest)%string) EmptyString l)%string.
Proof.
  induction l as [|x l IH]; intros acc; cbn [fold_left fold_right].
  - now rewrite append_empty_r.
  - now rewrite IH, append_assoc.
Qed.

(** X11.  [generateSCSS] prints every block of the object exactly once;
    when no block name is made of digits only, the text is the texts of the
    blocks one after the other in the order the blocks were created. *)
Theorem generateSCSS_creation_order (f : ISASSObject) :
  Permutation (Object_values f) (map snd f) /\
  (Forall (fun kn => string_forall (in_range "0" "9") (fst kn) = false) f ->
   generateSCSS f
   = fold_right (fun kn rest =>
                   (parseToSCSS (snd kn) EmptyString 0 ++ rest)%string)
                EmptyString f).
Proof.
  split; [apply Object_values_perm|].
  intros H. unfold generateSCSS.
  rewrite Object_values_creation_order, fold_left_append by assumption.
  cbn [append]. clear H. induction f as [|kn f IH]; cbn [map fold_right];
    [reflexivity | now rewrite IH].
Qed.

Lemma generateSCSS_creation_order_witness :
  generateSCSS [("b", leaf "b"); ("a", leaf "a")]
  = fold_right (fun kn rest =>
                  (parseToSCSS (snd kn) EmptyString 0 ++ rest)%string)
               EmptyString [("b", leaf "b"); ("a", leaf "a")].
Proof.
  exact (proj2 (generateSCSS_creation_order [("b", leaf "b"); ("a", leaf "a")])
           ltac:(repeat constructor)).
Defined.

(** ** The sorted order does not depend on the order of arrival *)

Lemma sorted_perm_unique {A : Type} (R : A -> A -> Prop) (l1 : list A) :
  forall l2,
    StronglySorted R l1 -> StronglySorted R l2 -> Permutation l1 l2 ->
    (forall a b, In a l1 -> In b l1 -> R a b -> R b a -> a = b) ->
    l1 = l2.
Proof.
  induction l1 as [|x t1 IH]; intros l2 S1 S2 P Anti.
  - apply Permutation_nil in P. now subst.
  - destruct l2 as [|y t2];
      [symmetry in P; apply Permutation_nil in P; discriminate|].
    apply StronglySorted_inv in S1. destruct S1 as [S1 F1].
    apply StronglySorted_inv in S2. destruct S2 as [S2 F2].
    rewrite Forall_forall in F1, F2.
    assert (Hxy : x = y).
    { assert (Hx : In x (y :: t2))
        by (eapply Permutation_in; [exact P | now left]).
      assert (Hy : In y (x :: t1))
        by (eapply Permutation_in; [symmetry; exact P | now left]).
      destruct Hx as [Hx|Hx]; [now subst|].
      destruct Hy as [Hy|Hy]; [now subst|].
      apply Anti; [now left | now right | now apply F1 | now apply F2]. }
    subst y. f_equal. apply IH; try assumption.
    + eapply Permutation_cons_inv; exact P.
    + intros a b Ha Hb. apply Anti; now right.
Qed.

Lemma NoDup_names_inj (l : list SASSObjectItem) (a b : SASSObjectItem) :
  NoDup (names l) -> In a l -> In b l -> parent a = parent b -> a = b.
Proof.
  unfold names. induction l as [|x l IH]; intros Hnd Ha Hb E; [destruct Ha|].
  apply NoDup_cons_iff in Hnd. destruct Hnd as [Hx Hnd].
  destruct Ha as [->|Ha], Hb as [->|Hb]; auto.
  - elim Hx. rewrite E. now apply in_map.
  - elim Hx. rewrite <- E. now apply in_map.
Qed.

Lemma codeunit_compare_antisym (a b : string) :
  (codeunit_compare a b <= 0)%Z -> (codeunit_compare b a <= 0)%Z -> a = b.
Proof.
  unfold codeunit_compare. rewrite (String.compare_antisym b a).
  destruct (String.compare a b) eqn:E; simpl; try lia.
  intros _ _. now apply String.compare_eq_iff.
Qed.

(** X12.  With a [localeCompare] that is a total order on names, the array
    [sortSASSObjectChildren] returns depends only on which nodes it is
    given, not on their order: two arrays of nodes with distinct names
    that hold the same nodes are sorted into the same array.  Sorting a
    sorted array changes nothing, and the forest [extractSCSS] returns is
    left as it is by the sorting pass. *)
Theorem sortSASSObjectChildren_order_free
  (localeCompare : string -> string -> Z)
  (Htotal : forall a b,
      (0 < localeCompare a b)%Z -> (localeCompare b a <= 0)%Z)
  (Htrans : forall a b c,
      (localeCompare a b <= 0)%Z -> (localeCompare b c <= 0)%Z ->
      (localeCompare a c <= 0)%Z)
  (Hantisym : forall a b,
      (localeCompare a b <= 0)%Z -> (localeCompare b a <= 0)%Z -> a = b) :
  (forall l l',
      NoDup (names l) -> Permutation l l' ->
      sortSASSObjectChildren localeCompare l
      = sortSASSObjectChildren localeCompare l') /\
  (forall l,
      NoDup (names l) ->
      sortSASSObjectChildren localeCompare
        (sortSASSObjectChildren localeCompare l)
      = sortSASSObjectChildren localeCompare l) /\
  (forall classNames f,
      extractSCSS localeCompare classNames = Normal f ->
      sort_blocks localeCompare f = f).
Proof.
  assert (Hfree : forall l l',
             NoDup (names l) -> Permutation l l' ->
             sortSASSObjectChildren localeCompare l
             = sortSASSObjectChildren localeCompare l').
  { intros l l' Hnd P. unfold sortSASSObjectChildren.
    apply (sorted_perm_unique
             (fun a b => (compareFn localeCompare a b <= 0)%Z)).
    - now apply sort_by_sorted.
    - now apply sort_by_sorted.
    - rewrite !sort_by_perm. exact P.
    - intros a b Ha Hb Hab Hba.
      apply (Permutation_in _ (sort_by_perm _ l)) in Ha, Hb.
      apply (NoDup_names_inj l); try assumption.
      unfold compareFn in Hab, Hba.
      destruct (String.prefix "--" (parent a)),
        (String.prefix "--" (parent b)); simpl in Hab, Hba;
        try lia; now apply Hantisym. }
  assert (Hidem : forall l,
             NoDup (names l) ->
             sortSASSObjectChildren localeCompare
               (sortSASSObjectChildren localeCompare l)
             = sortSASSObjectChildren localeCompare l).
  { intros l Hnd. symmetry. apply Hfree; [assumption|].
    symmetry. apply sort_by_perm. }
  split; [exact Hfree|]. split; [exact Hidem|].
  intros classNames f H. pose proof (extractSCSS_ok _ _ _ H) as Hok.
  unfold extractSCSS in H.
  destruct (extractSCSS_loop [] classNames) as [o|] eqn:E; simpl in H;
    [|discriminate].
  inv H. apply extractSCSS_loop_ok in E; [|constructor].
  unfold sort_blocks. rewrite map_map.
  apply map_ext_in. intros [k n] Hin. cbn [fst snd parent children]. f_equal.
  f_equal. apply Hidem.
  unfold forest_ok in E. rewrite Forall_forall in E.
  now destruct (E _ Hin) as (_ & _ & Hnd & _).
Qed.

Lemma sortSASSObjectChildren_order_free_witness :
  sortSASSObjectChildren codeunit_compare
    [leaf "__title"; leaf "--large"; leaf "__body"]
  = sortSASSObjectChildren codeunit_compare
      [leaf "__body"; leaf "__title"; leaf "--large"].
Proof.
  refine (proj1 (sortSASSObjectChildren_order_free codeunit_compare
                   codeunit_compare_total codeunit_compare_trans
                   codeunit_compare_antisym) _ _ _ _).
  - vm_compute. repeat constructor; simpl; intuition discriminate.
  - apply Permutation_sym.
    apply (Permutation_cons_app [leaf "__title"; leaf "--large"] []
             (leaf "__body")).
    apply Permutation_refl.
Defined.

(** ** The earlier serializer *)

Lemma parseToSCSS_legacy_unfold (name : string) (kids : list SASSObjectItem)
  (parentSelector : string) :
  let currentSelector :=
    (if negb (truthy (Some parentSelector)) then "." ++ name
     else "&" ++ name)%string in
  parseToSCSS_legacy (mkItem name kids) parentSelector =
  (currentSelector ++ " {" ++ str1 newline
   ++ fold_right (fun child rest =>
                    parseToSCSS_legacy child currentSelector ++ rest)
                 EmptyString kids
   ++ "}" ++ str1 newline)%string.
Proof. reflexivity. Qed.

Lemma parseToSCSS_legacy_scan (n : SASSObjectItem) :
  all_names brace_free n = true ->
  forall parentSelector d,
    brace_scan (parseToSCSS_legacy n parentSelector) d = Some d /\
    count_char "{" (parseToSCSS_legacy n parentSelector) = node_count n.
Proof.
  induction n as [name kids IH] using SASSObjectItem_induction.
  rewrite all_names_unfold. intros H sel d. cbn [parent children] in H.
  apply andb_true_iff in H. destruct H as [Hname Hkids].
  rewrite parseToSCSS_legacy_unfold, node_count_unfold. cbv zeta.
  cbn [children].
  set (cur := (if negb (truthy (Some sel)) then "." ++ name else "&" ++ name)%string).
  assert (Hcur : brace_free cur = true).
  { unfold cur. destruct (negb (truthy (Some sel))); exact Hname. }
  assert (Hk : (forall d',
                   brace_scan (fold_right (fun child rest =>
                                 (parseToSCSS_legacy child cur ++ rest)%string)
                               EmptyString kids) d' = Some d') /\
               count_char "{"
                 (fold_right (fun child rest =>
                    (parseToSCSS_legacy child cur ++ rest)%string)
                  EmptyString kids)
               = list_sum (map node_count kids)).
  { clear Hcur. induction IH as [|c l Hc _ IHl]; [now split|].
    cbn [forallb] in Hkids. apply andb_true_iff in Hkids.
    destruct Hkids as [Hc' Hl]. destruct (IHl Hl) as [IHs IHc].
    split.
    - intros d'. cbn [fold_right]. rewrite brace_scan_app.
      destruct (Hc Hc' cur d') as [-> _]. apply IHs.
    - cbn [fold_right]. rewrite count_char_app, IHc.
      destruct (Hc Hc' cur 0) as [_ ->]. reflexivity. }
  destruct Hk as [Hks Hkc]. split.
  - rewrite brace_scan_skip by exact Hcur.
    change (" {" ++ ?x)%string with (String " " (String "{" x)).
    cbn [brace_scan]. change (Ascii.eqb " " "{") with false.
    change (Ascii.eqb " " "}") with false.
    change (Ascii.eqb "{" "{") with true. cbv iota.
    rewrite (brace_scan_skip (str1 newline)) by reflexivity.
    rewrite brace_scan_app, Hks.
    change ("}" ++ ?x)%string with (String "}" x).
    cbn [brace_scan]. change (Ascii.eqb "}" "{") with false.
    change (Ascii.eqb "}" "}") with true. cbv iota. reflexivity.
  - rewrite !count_char_app, Hkc, (brace_free_no_open _ Hcur).
    change (count_char "{" " {") with 1.
    change (count_char "{" (str1 newline)) with 0.
    change (count_char "{" "}") with 0. lia.
Qed.

Lemma generateSCSS_legacy_from (l : list SASSObjectItem) :
  Forall (fun n => all_names brace_free n = true) l ->
  forall acc d,
    brace_scan acc d = Some d ->
    brace_scan
      (fold_left (fun result block =>
                    (result ++ parseToSCSS_legacy block EmptyString)%string)
                 l acc) d = Some d /\
    count_char "{"
      (fold_left (fun result block =>
                    (result ++ parseToSCSS_legacy block EmptyString)%string)
                 l acc)
    = count_char "{" acc + list_sum (map node_count l).
Proof.
  induction 1 as [|n l Hn _ IH]; intros acc d Hacc; simpl.
  - split; [exact Hacc | lia].
  - destruct (parseToSCSS_legacy_scan n Hn EmptyString d) as [Hs _].
    destruct (parseToSCSS_legacy_scan n Hn EmptyString 0) as [_ Hc].
    destruct (IH (acc ++ parseToSCSS_legacy n EmptyString)%string d) as [IHs IHc].
    { now rewrite brace_scan_app, Hacc. }
    split; [exact IHs|]. rewrite IHc, count_char_app, Hc. lia.
Qed.

(** X13.  The earlier [generateSCSS] too, on a selector forest, returns a
    text whose braces are properly nested and closed, with one rule opened
    and one closed for every node of the forest. *)
Theorem generateSCSS_legacy_rules (f : ISASSObject) :
  SelectorForest f ->
  balanced (generateSCSS_legacy f) /\
  count_char "{" (generateSCSS_legacy f)
  = list_sum (map (fun kn => node_count (snd kn)) f) /\
  count_char "}" (generateSCSS_legacy f)
  = list_sum (map (fun kn => node_count (snd kn)) f).
Proof.
  intros Hf. apply SelectorForest_values in Hf.
  destruct (generateSCSS_legacy_from _ Hf EmptyString 0 eq_refl) as [Hs Hc].
  fold (generateSCSS_legacy f) in Hs, Hc.
  assert (Hopen : count_char "{" (generateSCSS_legacy f)
                  = list_sum (map (fun kn => node_count (snd kn)) f)).
  { rewrite Hc. cbn [count_char]. rewrite <- (map_map snd node_count).
    apply list_sum_perm, Permutation_map, Object_values_perm. }
  split; [exact Hs|]. split; [exact Hopen|].
  rewrite <- Hopen. symmetry. now apply balanced_count.
Qed.

Lemma generateSCSS_legacy_rules_witness :
  balanced
    (generateSCSS_legacy
       [("card", mkItem "card" [leaf "--large";
                                mkItem "__title" [leaf "--big"]])]).
Proof.
  exact (proj1 (generateSCSS_legacy_rules
                  [("card", mkItem "card" [leaf "--large";
                                           mkItem "__title" [leaf "--big"]])]
                  ltac:(repeat constructor))).
Defined.
